(** * intmul: recursive hexadecimal multiplication (Uebung_1/Intmul/intmul.c)

    A shallow embedding of [intmul.c] and the properties of its input
    normaliser, base case, combiner and fan-in loop.

    Modelling conventions.
    - A C [char] is an integer ([Z]); a C string is the list of the
      characters that precede its terminating NUL.  A buffer filled by
      [getline] is the list of all bytes read (it may contain NUL bytes);
      the string functions see only its prefix up to the first NUL ([c_str]).
    - C [int] values that hold digit values are [Z] ([/] and [%] are
      [Z.quot] and [Z.rem]); string lengths and array indices are [nat].
      Lengths are not bounded: the program has no limit of its own, and
      [int] arithmetic on lengths is exact for every input that fits in
      memory on the usual 32-bit [int].
    - [stdin], [stdout] are byte lists; [stderr] is the list of diagnostics
      the process itself printed.
    - A child process is a recursive run of [main] on the two lines its
      parent sends; [pipe], [fork], [dup2], [execlp], [malloc] and [fdopen]
      are taken to succeed, and a child's answer to fit in its pipe.
    - Loops whose trip count is not a structural argument ([while] in
      [padAndAlignNumbers], the process recursion of [main]) take a fuel
      argument and return [None] when it runs out; the theorems show that
      enough fuel always gives a result. *)

From stdpp Require Import numbers list strings.

Local Open Scope Z_scope.

(** ** Characters and C library functions *)

Definition char : Type := Z.

(** ['\n'] *)
Definition NL : char := 10.
(** ['0'] *)
Definition ZERO : char := 48.

(** [EXIT_SUCCESS] and [EXIT_FAILURE] *)
Definition EXIT_SUCCESS : Z := 0.
Definition EXIT_FAILURE : Z := 1.

(** <ctype.h>, "C" locale: '0' = 48, '9' = 57, 'A' = 65, 'F' = 70,
    'Z' = 90, 'a' = 97, 'f' = 102. *)
Definition isdigit (c : char) : bool := (48 <=? c) && (c <=? 57).

Definition isxdigit (c : char) : bool :=
  isdigit c || ((97 <=? c) && (c <=? 102)) || ((65 <=? c) && (c <=? 70)).

Definition tolower (c : char) : char :=
  if (65 <=? c) && (c <=? 90) then c + 32 else c.

(** The bytes of a string literal, for readable examples. *)
Fixpoint bytes (s : string) : list char :=
  match s with
  | EmptyString => []
  | String a s' => Z.of_N (Ascii.N_of_ascii a) :: bytes s'
  end.

(** The C string held in a buffer: the bytes before the first NUL. *)
Fixpoint c_str (buf : list char) : list char :=
  match buf with
  | [] => []
  | c :: buf' => if c =? 0 then [] else c :: c_str buf'
  end.

(** ** The helper functions of intmul.c *)

(** [isValidHexadecimal]: the loop runs to the terminating NUL. *)
Fixpoint isValidHexadecimal (s : list char) : Z :=
  match s with
  | [] => 1
  | c :: s' =>
      if c =? 0 then 1
      else if ((48 <=? c) && (c <=? 57)) ||
              ((97 <=? c) && (c <=? 102)) ||
              ((65 <=? c) && (c <=? 70)) ||
              (c =? NL)
           then isValidHexadecimal s'
           else 0
  end.

Definition hexDigitToInt (hex : char) : Z :=
  if isxdigit hex then
    if isdigit hex then hex - 48 else tolower hex - 97 + 10
  else -1.

(** ["0123456789abcdef"] *)
Definition hex_digits : list char :=
  [48; 49; 50; 51; 52; 53; 54; 55; 56; 57; 97; 98; 99; 100; 101; 102].

Definition intToHex (num : Z) : char :=
  if (0 <=? num) && (num <=? 15) then hex_digits !!! Z.to_nat num else -1.

(** [multiplyHexDigits a b] gives [(product, carryOut)]. *)
Definition multiplyHexDigits (a b : char) : char * char :=
  let numA := hexDigitToInt a in
  let numB := hexDigitToInt b in
  let result := numA * numB in
  (intToHex (Z.rem result 16), intToHex (Z.quot result 16)).

(** [addHexDigits a b carry] gives [(returned digit, *carryOut)]; the
    carry cell is read on entry and overwritten. *)
Definition addHexDigits (a b carry : char) : char * char :=
  let numA := hexDigitToInt a in
  let numB := hexDigitToInt b in
  let numCarry := hexDigitToInt carry in
  let result := numA + numB + 16 * numCarry in
  (intToHex (Z.rem result 16), intToHex (Z.quot result 16)).

(** ** Reading the input *)

(** The bytes of the stream up to and including the first newline, and
    what follows them. *)
Fixpoint read_line (stream : list char) : list char * list char :=
  match stream with
  | [] => ([], [])
  | c :: rest =>
      if c =? NL then ([c], rest)
      else let '(l, r) := read_line rest in (c :: l, r)
  end.

(** [getline]: [None] stands for the return value -1 (end of file with
    nothing read); otherwise the buffer, whose length is the return
    value, and the rest of the stream. *)
Definition getline (stream : list char) : option (list char * list char) :=
  match stream with
  | [] => None
  | _ => Some (read_line stream)
  end.

(** The two "trim the newline" blocks at the end of [readInput]. *)
Definition trim_newline (s : list char) : list char :=
  let len := length s in
  if (0 <? len)%nat && (s !!! (len - 1)%nat =? NL)
  then take (len - 1)%nat s else s.

(** [readInput]: [inl msg] is [exit(EXIT_FAILURE)] after printing [msg]
    on stderr; [inr (inputA, inputB)] are the two C strings handed back. *)
Definition readInput (stdin : list char) : string + (list char * list char) :=
  match getline stdin with
  | None => inl "Error reading the first input!"%string
  | Some (bufA, rest) =>
      if (length bufA =? 1)%nat && (bufA !!! 0%nat =? NL)
      then inl "Error: Empty first input!"%string
      else
        match getline rest with
        | None => inl "Error reading the second input!"%string
        | Some (bufB, _) =>
            if (length bufB =? 1)%nat && (bufB !!! 0%nat =? NL)
            then inl "Error: Empty second input!"%string
            else if isValidHexadecimal bufA =? 0
            then inl "Invalid Input for the first number!"%string
            else if isValidHexadecimal bufB =? 0
            then inl "Invalid Input for the second number!"%string
            else inr (trim_newline (c_str bufA), trim_newline (c_str bufB))
        end
  end.

(** ** Padding *)

(** [while (maxLength < lenA || maxLength < lenB) maxLength *= 2;] *)
Fixpoint maxLength_loop (fuel maxLength lenA lenB : nat) : option nat :=
  if (maxLength <? lenA)%nat || (maxLength <? lenB)%nat then
    match fuel with
    | O => None
    | S fuel' => maxLength_loop fuel' (maxLength * 2)%nat lenA lenB
    end
  else Some maxLength.

(** [padAndAlignNumbers]: the new values of [*numA] and [*numB]. *)
Definition padAndAlignNumbers (fuel : nat) (numA numB : list char)
  : option (list char * list char) :=
  let lenA := length numA in
  let lenB := length numB in
  match maxLength_loop fuel 1%nat lenA lenB with
  | None => None
  | Some maxLength =>
      let paddedA := replicate (maxLength - lenA) ZERO ++ numA in
      let paddedB := replicate (maxLength - lenB) ZERO ++ numB in
      Some (paddedA, paddedB)
  end.

(** ** Splitting *)

(** [splitNumbers numA numB] gives [(Ah, Al, Bh, Bl)]. *)
Definition splitNumbers (numA numB : list char)
  : list char * list char * list char * list char :=
  let len := length numA in
  let mid := (len / 2)%nat in
  (take mid numA, take mid (drop mid numA),
   take mid numB, take mid (drop mid numB)).

(** [sendInputToChild]: what the child finds on its stdin. *)
Definition sendInputToChild (A B : list char) : list char :=
  A ++ [NL] ++ B ++ [NL].

(** ** Waiting for the children *)

Definition WEXITSTATUS (status : Z) : Z := Z.land (Z.shiftr status 8) 255.

(** The wait status of a process that exited with [code]. *)
Definition W_EXITCODE (code : Z) : Z := Z.shiftl (Z.land code 255) 8.

(** [waitForChildren], from child index [i] on. [statuses] are the wait
    statuses [waitpid] reports for [child[i]], [child[i+1]], ...  The
    result is the list of children on which [waitpid] was called, in
    order, and [Some j] when the loop left through [exit(EXIT_FAILURE)]
    at child [j]. *)
Fixpoint waitForChildren_from (i : nat) (statuses : list Z)
  : list nat * option nat :=
  match statuses with
  | [] => ([], None)
  | status :: rest =>
      if WEXITSTATUS status =? EXIT_SUCCESS then
        let '(waited, failed) := waitForChildren_from (S i) rest in
        (i :: waited, failed)
      else ([i], Some i)
  end.

Definition waitForChildren (statuses : list Z) : list nat * option nat :=
  waitForChildren_from 0 statuses.

(** ** Shifting and summing *)

(** The cell [shiftedResults[i][j]] after the "Perform shifting" loops,
    for the intermediate result [res] of child [i]. *)
Definition shifted_cell (lenA i : nat) (res : list char) (j : nat) : char :=
  let currentStringLength := lenA in
  let zerosBefore := (lenA / 2)%nat in
  if (i =? 0)%nat then
    if (j <? currentStringLength)%nat then res !!! j else ZERO
  else if (i =? 1)%nat || (i =? 2)%nat then
    if (j <? zerosBefore)%nat then ZERO
    else if (j <? zerosBefore + currentStringLength)%nat
         then res !!! (j - zerosBefore)%nat
         else ZERO
  else if (i =? 3)%nat then
    if (j <? lenA)%nat then ZERO else res !!! (j - lenA)%nat
  else 0.

(** Row [i] of [shiftedResults]: [maxStringLength = 2 * lenA] cells. *)
Definition shifted_row (lenA i : nat) (res : list char) : list char :=
  shifted_cell lenA i res <$> seq 0 (2 * lenA).

Definition shiftResults (lenA : nat) (intermediateResults : list (list char))
  : list (list char) :=
  imap (shifted_row lenA) intermediateResults.

(** The inner loop [for (j = 0; j < 4; j++)] at column [i]: it starts
    from [(final_result[i], carry_digit)] and adds [shiftedResults[j][i]]
    for each row. *)
Definition sum_column (i : nat) (shiftedResults : list (list char))
    (start : char * char) : char * char :=
  foldl (fun st row => addHexDigits (fst st) (row !!! i) (snd st))
        start shiftedResults.

(** The outer loop, for the [k] columns [i = k - 1, ..., 0], on the state
    [(final_result, carry_digit)]. *)
Fixpoint sum_loop (k : nat) (shiftedResults : list (list char))
    (final_result : list char) (carry_digit : char) : list char * char :=
  match k with
  | O => (final_result, carry_digit)
  | S i =>
      let '(d, c) := sum_column i shiftedResults (carry_digit, ZERO) in
      sum_loop i shiftedResults (<[i := d]> final_result) c
  end.

(** "Sum all four results": the [2 * lenA] digits of [final_result] and
    the carry left after the most significant column. *)
Definition sumResults (lenA : nat) (shiftedResults : list (list char))
  : list char * char :=
  sum_loop (2 * lenA) shiftedResults (replicate (2 * lenA) 0) ZERO.

(** ** printf *)

Definition lower_hex_digit (d : Z) : char := hex_digits !!! Z.to_nat d.

(** The digits [%x] prints for [n], most significant first; an
    [unsigned int] has at most 8 of them. *)
Fixpoint hex_of (fuel : nat) (n : Z) : list char :=
  match fuel with
  | O => []
  | S fuel' =>
      if n <? 16 then [lower_hex_digit n]
      else hex_of fuel' (n / 16) ++ [lower_hex_digit (n mod 16)]
  end.

(** [printf("%02x", n)]: [n] is converted to [unsigned int]. *)
Definition printf_02x (n : Z) : list char :=
  let ds := hex_of 8 (n mod 2 ^ 32) in
  replicate (2 - length ds) ZERO ++ ds.

(** ** The program *)

Record process_result : Type := ProcessResult {
  exit_status : Z;
  stdout : list char;
  stderr : list string
}.

Definition exit_failure (msg : string) : process_result :=
  ProcessResult EXIT_FAILURE [] [msg].

Definition child_index_name (i : nat) : string :=
  match i with
  | 0%nat => "0" | 1%nat => "1" | 2%nat => "2" | _ => "3"
  end%string.

(** The first line of each child's output ([getline] on the pipe), or
    [None] if some child wrote nothing. *)
Definition read_results (children : list process_result)
  : option (list (list char)) :=
  mapM (fun r => fst <$> getline (stdout r)) children.

(** The branch [lenA == 1] of [main]: what it prints. *)
Definition single_digit_case (inputA inputB : list char) : list char :=
  let a := tolower (inputA !!! 0%nat) in
  let b := tolower (inputB !!! 0%nat) in
  let br1 := hexDigitToInt a in
  let br2 := hexDigitToInt b in
  let res := br1 * br2 in
  printf_02x res ++ [NL].

Fixpoint main (fuel : nat) (argc : Z) (stdin : list char)
  : option process_result :=
  match fuel with
  | O => None
  | S fuel' =>
      if negb (argc =? 1) then
        Some (ProcessResult EXIT_FAILURE []
                ["Usage: intmul";
                 "This program does not accept command-line arguments."]%string)
      else
        match readInput stdin with
        | inl msg => Some (exit_failure msg)
        | inr (inputA, inputB) =>
            match padAndAlignNumbers fuel' inputA inputB with
            | None => None
            | Some (inputA, inputB) =>
                let lenA := length inputA in
                if (1 <? lenA)%nat then
                  let '(Ah, Al, Bh, Bl) := splitNumbers inputA inputB in
                  match mapM (fun '(A, B) => main fuel' 1 (sendInputToChild A B))
                             [(Ah, Bh); (Ah, Bl); (Al, Bh); (Al, Bl)] with
                  | None => None
                  | Some children =>
                      match waitForChildren
                              ((fun r => W_EXITCODE (exit_status r)) <$> children) with
                      | (_, Some i) =>
                          Some (exit_failure
                                  ("Error in child process " +:+ child_index_name i))
                      | (_, None) =>
                          match read_results children with
                          | None => Some (exit_failure "Error reading from pipe")
                          | Some intermediateResults =>
                              let shiftedResults :=
                                shiftResults lenA intermediateResults in
                              let '(final_result, _) :=
                                sumResults lenA shiftedResults in
                              Some (ProcessResult 0 (final_result ++ [NL]) [])
                          end
                      end
                  end
                else if (lenA =? 1)%nat then
                  Some (ProcessResult 0 (single_digit_case inputA inputB) [])
                else Some (ProcessResult 0 [] [])
            end
        end
  end.

(** ** Reference notions used in the statements *)

(** A hexadecimal digit character, either case. *)
Definition is_hex (c : char) : Prop := isxdigit c = true.

(** The number a digit string denotes, most significant digit first. *)
Definition hex_value (s : list char) : Z :=
  foldl (fun acc c => 16 * acc + hexDigitToInt c) 0 s.

(** [v mod 16 ^ m] written with exactly [m] lowercase digits, most
    significant first (so: [v] left-padded with zeros when [v < 16 ^ m]). *)
Fixpoint to_hex (m : nat) (v : Z) : list char :=
  match m with
  | O => []
  | S m' => lower_hex_digit ((v / 16 ^ Z.of_nat m') mod 16) :: to_hex m' v
  end.

(** The least power of two that is at least [n]. *)
Definition nextPow2 (n : nat) : nat := (2 ^ Nat.log2_up n)%nat.

(** The column total of four rows and an incoming carry. *)
Definition column_total (i : nat) (r0 r1 r2 r3 : list char) (cin : char) : Z :=
  hexDigitToInt (r0 !!! i) + hexDigitToInt (r1 !!! i) +
  hexDigitToInt (r2 !!! i) + hexDigitToInt (r3 !!! i) + hexDigitToInt cin.

(** What [isValidHexadecimal] lets through: digits and newlines. *)
Definition valid_char (c : char) : Prop := is_hex c \/ c = NL.

(** A wait status that [waitForChildren] takes for success. *)
Definition child_ok (status : Z) : Prop := WEXITSTATUS status = EXIT_SUCCESS.

(** The sum of the numbers the four rows hold in their columns [k],
    [k + 1], ... *)
Definition suffix_total (k : nat) (r0 r1 r2 r3 : list char) : Z :=
  hex_value (drop k r0) + hex_value (drop k r1) +
  hex_value (drop k r2) + hex_value (drop k r3).

(** What may follow the second operand on stdin: the end of the stream,
    or a newline (and then anything). *)
Definition end_of_line (tail : list char) : Prop :=
  tail = [] \/ head tail = Some NL.

(** A successful run that printed [digits] and a newline. *)
Definition ok_result (digits : list char) : process_result :=
  ProcessResult 0 (digits ++ [NL]) [].

(** The first two lines of the input as [getline] cuts them (each with
    its newline, if it has one). *)
Definition first_line (stdin : list char) : list char := fst (read_line stdin).
Definition second_line (stdin : list char) : list char :=
  fst (read_line (snd (read_line stdin))).

(** The column recurrence of the combiner, written out: [digits_at i] is
    the sum of the four digits that stand in column [i]; [carry_out m L]
    is the carry that leaves the [m] least significant of [L] columns
    (none leaves zero columns; the carry out of one more column is its
    digit sum plus the carry that came in, divided by 16). *)
Definition digits_at (i : nat) (r0 r1 r2 r3 : list char) : Z :=
  hexDigitToInt (r0 !!! i) + hexDigitToInt (r1 !!! i) +
  hexDigitToInt (r2 !!! i) + hexDigitToInt (r3 !!! i).

Fixpoint carry_out (m L : nat) (r0 r1 r2 r3 : list char) : Z :=
  match m with
  | O => 0
  | S m' =>
      (digits_at (L - S m') r0 r1 r2 r3 + carry_out m' L r0 r1 r2 r3) / 16
  end.

(** * Examples *)

Example main_1a_ab :
  main 5 1 (bytes "1a" ++ [NL] ++ bytes "ab" ++ [NL])
  = Some (ProcessResult 0 (bytes "115e" ++ [NL]) []).
Proof. vm_compute. reflexivity. Qed.

Example main_3_12 :
  main 5 1 (bytes "3" ++ [NL] ++ bytes "12" ++ [NL])
  = Some (ProcessResult 0 (bytes "0036" ++ [NL]) []).
Proof. vm_compute. reflexivity. Qed.

Example main_f_f :
  main 5 1 (bytes "F" ++ [NL] ++ bytes "f")
  = Some (ProcessResult 0 (bytes "e1" ++ [NL]) []).
Proof. vm_compute. reflexivity. Qed.

Example main_big :
  main 9 1 (bytes "DEADBEEF" ++ [NL] ++ bytes "cafebabe" ++ [NL])
  = Some (ProcessResult 0 (bytes "b092ab7b88cf5b62" ++ [NL]) []).
Proof. vm_compute. reflexivity. Qed.

(** * Characters *)

Ltac char_cases :=
  repeat match goal with
         | |- context [(?a <=? ?b)] => destruct (Z.leb_spec a b)
         | |- context [(?a =? ?b)] => destruct (Z.eqb_spec a b)
         | H : context [(?a <=? ?b)] |- _ => destruct (Z.leb_spec a b)
         | H : context [(?a =? ?b)] |- _ => destruct (Z.eqb_spec a b)
         end;
  simpl in *; try done; try lia.

Ltac digit_cases v :=
  let H := fresh in
  assert (H : v = 0 \/ v = 1 \/ v = 2 \/ v = 3 \/ v = 4 \/ v = 5 \/ v = 6 \/
              v = 7 \/ v = 8 \/ v = 9 \/ v = 10 \/ v = 11 \/ v = 12 \/
              v = 13 \/ v = 14 \/ v = 15) by lia;
  repeat (destruct H as [H | H]); subst v.

Lemma hexDigitToInt_range c : is_hex c -> 0 <= hexDigitToInt c <= 15.
Proof.
  unfold is_hex, hexDigitToInt, isxdigit, isdigit, tolower. char_cases.
Qed.

Lemma hexDigitToInt_intToHex v : 0 <= v <= 15 -> hexDigitToInt (intToHex v) = v.
Proof. intros Hv. digit_cases v; reflexivity. Qed.

Lemma is_hex_intToHex v : 0 <= v <= 15 -> is_hex (intToHex v).
Proof. intros Hv. digit_cases v; reflexivity. Qed.

Lemma intToHex_lower v : 0 <= v <= 15 -> intToHex v = lower_hex_digit v.
Proof. intros Hv. digit_cases v; reflexivity. Qed.

Lemma intToHex_0 : intToHex 0 = ZERO.
Proof. reflexivity. Qed.

Lemma hexDigitToInt_ZERO : hexDigitToInt ZERO = 0.
Proof. reflexivity. Qed.

Lemma is_hex_ZERO : is_hex ZERO.
Proof. reflexivity. Qed.

Lemma is_hex_not_NL c : is_hex c -> c <> NL.
Proof. unfold is_hex, isxdigit, isdigit, NL. char_cases. Qed.

Lemma is_hex_not_NUL c : is_hex c -> c <> 0.
Proof. unfold is_hex, isxdigit, isdigit. char_cases. Qed.

Lemma is_hex_ranges c :
  is_hex c -> 48 <= c <= 57 \/ 97 <= c <= 102 \/ 65 <= c <= 70.
Proof. unfold is_hex, isxdigit, isdigit. char_cases. Qed.

Lemma hexDigitToInt_tolower c : is_hex c -> hexDigitToInt (tolower c) = hexDigitToInt c.
Proof.
  intros Hc. apply is_hex_ranges in Hc.
  assert (Hupper : 65 <= c <= 70 \/ ~ (65 <= c <= 90)) by lia.
  destruct Hupper as [Hupper | Hlower].
  - assert (H : c = 65 \/ c = 66 \/ c = 67 \/ c = 68 \/ c = 69 \/ c = 70) by lia.
    repeat (destruct H as [H | H]); subst c; reflexivity.
  - unfold tolower.
    destruct (Z.leb_spec 65 c), (Z.leb_spec c 90); cbn [andb]; try reflexivity; lia.
Qed.

(** One call of [addHexDigits] on digit characters keeps the invariant
    [16 * carry + digit = running total]. *)
Lemma addHexDigits_spec a b c :
  is_hex a -> is_hex b -> is_hex c -> hexDigitToInt c <= 14 ->
  let s := hexDigitToInt a + hexDigitToInt b in
  addHexDigits a b c
  = (intToHex (s mod 16), intToHex (hexDigitToInt c + s / 16)).
Proof.
  intros Ha Hb Hc Hc' s. unfold addHexDigits.
  apply hexDigitToInt_range in Ha, Hb, Hc. fold s.
  assert (0 <= s <= 30) by (unfold s; lia).
  rewrite Z.rem_mod_nonneg, Z.quot_div_nonneg by lia.
  replace (s + 16 * hexDigitToInt c) with (s + hexDigitToInt c * 16) by lia.
  rewrite Z.mod_add, Z.div_add by lia.
  f_equal; f_equal; lia.
Qed.

(** Adding one more digit [b] to a running column total [t] that is held
    as the pair (digit [t mod 16], carry [t / 16]). *)
Lemma addHexDigits_acc t b :
  is_hex b -> 0 <= t <= 239 ->
  addHexDigits (intToHex (t mod 16)) b (intToHex (t / 16))
  = (intToHex ((t + hexDigitToInt b) mod 16),
     intToHex ((t + hexDigitToInt b) / 16)).
Proof.
  intros Hb Ht.
  pose proof (hexDigitToInt_range _ Hb) as Hb'.
  assert (0 <= t mod 16 <= 15) by (pose proof (Z.mod_pos_bound t 16); lia).
  assert (0 <= t / 16 <= 14) by (Z.div_mod_to_equations; lia).
  rewrite addHexDigits_spec;
    rewrite ?hexDigitToInt_intToHex by lia;
    try (apply is_hex_intToHex); try lia; auto.
  f_equal; f_equal; Z.div_mod_to_equations; lia.
Qed.

Lemma sum_column_spec i r0 r1 r2 r3 cin :
  is_hex (r0 !!! i) -> is_hex (r1 !!! i) ->
  is_hex (r2 !!! i) -> is_hex (r3 !!! i) -> is_hex cin ->
  let t := column_total i r0 r1 r2 r3 cin in
  sum_column i [r0; r1; r2; r3] (cin, ZERO)
  = (intToHex (t mod 16), intToHex (t / 16)).
Proof.
  intros H0 H1 H2 H3 Hc t. unfold sum_column. cbn [foldl fst snd].
  pose proof (hexDigitToInt_range _ H0).
  pose proof (hexDigitToInt_range _ H1).
  pose proof (hexDigitToInt_range _ H2).
  pose proof (hexDigitToInt_range _ H3).
  pose proof (hexDigitToInt_range _ Hc).
  rewrite (addHexDigits_spec cin (r0 !!! i) ZERO)
    by (auto using is_hex_ZERO; rewrite hexDigitToInt_ZERO; lia).
  rewrite hexDigitToInt_ZERO, Z.add_0_l. cbn [fst snd].
  rewrite addHexDigits_acc by (auto; lia). cbn [fst snd].
  rewrite addHexDigits_acc by (auto; lia). cbn [fst snd].
  rewrite addHexDigits_acc by (auto; lia).
  unfold t, column_total. f_equal; f_equal; f_equal; lia.
Qed.

(** * The validator *)

Lemma isValidHexadecimal_accepts s :
  Forall valid_char s -> isValidHexadecimal s = 1.
Proof.
  induction 1 as [| c s Hc _ IH]; [reflexivity |].
  cbn [isValidHexadecimal]. rewrite IH.
  destruct Hc as [Hc | ->]; [| reflexivity].
  unfold is_hex, isxdigit, isdigit, NL in *. char_cases.
Qed.

Lemma isValidHexadecimal_rejects s :
  ~ In 0 s -> ~ Forall valid_char s -> isValidHexadecimal s = 0.
Proof.
  induction s as [| c s IH]; intros Hnul Hbad.
  - destruct Hbad. constructor.
  - cbn [isValidHexadecimal].
    destruct (Z.eqb_spec c 0) as [-> | Hc0]; [destruct Hnul; left; done |].
    destruct (_ || _) eqn:Hok.
    + apply IH; [intros ?; apply Hnul; right; done |].
      intros Hs. apply Hbad. constructor; [| done].
      unfold valid_char, is_hex, isxdigit, isdigit, NL in *.
      revert Hok. char_cases; intros; try discriminate; auto.
    + reflexivity.
Qed.

(** * Padding *)

Lemma maxLength_loop_unfold fuel m la lb :
  maxLength_loop fuel m la lb
  = if (m <? la)%nat || (m <? lb)%nat then
      match fuel with
      | O => None
      | S fuel' => maxLength_loop fuel' (m * 2)%nat la lb
      end
    else Some m.
Proof. destruct fuel; reflexivity. Qed.

Lemma pow2_pos k : (0 < 2 ^ k)%nat.
Proof. induction k; simpl; lia. Qed.

(** The loop invariant: [maxLength] is a power of two whose half is
    still too small. *)
Lemma maxLength_loop_spec la lb fuel : forall j,
  (j = 0 \/ 2 ^ (j - 1) < la `max` lb)%nat ->
  (la `max` lb <= 2 ^ (j + fuel))%nat ->
  exists k, maxLength_loop fuel (2 ^ j)%nat la lb = Some (2 ^ k)%nat /\
            (la `max` lb <= 2 ^ k)%nat /\
            (k = 0 \/ 2 ^ (k - 1) < la `max` lb)%nat.
Proof.
  induction fuel as [| fuel IH]; intros j Hmin Hfuel;
    rewrite maxLength_loop_unfold;
    destruct (Nat.ltb_spec (2 ^ j) la), (Nat.ltb_spec (2 ^ j) lb);
    cbn [orb];
    try (exists j; split; [reflexivity | split; [lia | exact Hmin]]);
    try (rewrite Nat.add_0_r in Hfuel; lia).
  all: replace (2 ^ j * 2)%nat with (2 ^ S j)%nat by (simpl; lia).
  all: apply IH;
    [ right; replace (S j - 1)%nat with j by lia; lia
    | replace (S j + fuel)%nat with (j + S fuel)%nat by lia; exact Hfuel ].
Qed.

Lemma maxLength_loop_nextPow2 fuel la lb :
  (la `max` lb <= 2 ^ fuel)%nat ->
  maxLength_loop fuel 1 la lb = Some (nextPow2 (la `max` lb)).
Proof.
  intros Hfuel.
  destruct (maxLength_loop_spec la lb fuel 0) as (k & Hk & Hge & Hmin);
    [by left | exact Hfuel |].
  cbn [Nat.pow] in Hk. rewrite Hk.
  unfold nextPow2. do 2 f_equal. symmetry.
  destruct Hmin as [-> | Hmin].
  - apply Nat.log2_up_eqn0. simpl in Hge. lia.
  - destruct k as [| k].
    + simpl in *. apply Nat.log2_up_eqn0. lia.
    + apply Nat.log2_up_unique; [lia |].
      replace (S k - 1)%nat with k in Hmin by lia. simpl Nat.pred. lia.
Qed.

Lemma nextPow2_ge n : (n <= nextPow2 n)%nat.
Proof.
  unfold nextPow2. destruct (decide (1 < n)%nat) as [Hn | Hn].
  - apply Nat.log2_up_spec in Hn. lia.
  - rewrite Nat.log2_up_eqn0 by lia. simpl. lia.
Qed.

Lemma nextPow2_least n k : (n <= 2 ^ k)%nat -> (nextPow2 n <= 2 ^ k)%nat.
Proof.
  intros Hk. unfold nextPow2. apply Nat.pow_le_mono_r; [lia |].
  destruct (decide (1 < n)%nat) as [Hn | Hn].
  - apply Nat.log2_up_le_pow2; lia.
  - rewrite Nat.log2_up_eqn0 by lia. lia.
Qed.

Lemma nextPow2_pow2 k : nextPow2 (2 ^ k) = (2 ^ k)%nat.
Proof. unfold nextPow2. rewrite Nat.log2_up_pow2; [done | lia]. Qed.

Lemma padAndAlignNumbers_spec fuel numA numB :
  (length numA `max` length numB <= 2 ^ fuel)%nat ->
  let maxLength := nextPow2 (length numA `max` length numB) in
  padAndAlignNumbers fuel numA numB
  = Some (replicate (maxLength - length numA) ZERO ++ numA,
          replicate (maxLength - length numB) ZERO ++ numB).
Proof.
  intros Hfuel maxLength. unfold padAndAlignNumbers.
  rewrite maxLength_loop_nextPow2 by exact Hfuel. reflexivity.
Qed.

(** [C3] The loop of [padAndAlignNumbers] ends with [maxLength] the least
    power of two that is at least both lengths, and both operands come
    back left-padded with ['0'] to exactly that length.  (Enough fuel:
    the loop runs at most [fuel] times and [2 ^ fuel] bounds the
    lengths.) *)
Theorem C3_pad_to_next_power_of_two fuel (numA numB : list char) :
  (length numA `max` length numB <= 2 ^ fuel)%nat ->
  exists maxLength k,
    padAndAlignNumbers fuel numA numB
    = Some (replicate (maxLength - length numA) ZERO ++ numA,
            replicate (maxLength - length numB) ZERO ++ numB) /\
    maxLength = (2 ^ k)%nat /\
    (length numA `max` length numB <= maxLength)%nat /\
    (forall k', (length numA `max` length numB <= 2 ^ k')%nat ->
                (maxLength <= 2 ^ k')%nat) /\
    length (replicate (maxLength - length numA) ZERO ++ numA) = maxLength /\
    length (replicate (maxLength - length numB) ZERO ++ numB) = maxLength.
Proof.
  intros Hfuel.
  exists (nextPow2 (length numA `max` length numB)),
         (Nat.log2_up (length numA `max` length numB)).
  pose proof (nextPow2_ge (length numA `max` length numB)) as Hge.
  split; [by apply padAndAlignNumbers_spec |].
  split; [reflexivity |].
  split; [exact Hge |].
  split; [apply nextPow2_least |].
  rewrite !length_app, !length_replicate. lia.
Qed.

Lemma C3_pad_to_next_power_of_two_witness :
  exists maxLength k,
    padAndAlignNumbers 2 (bytes "3") (bytes "abc")
    = Some (replicate (maxLength - 1) ZERO ++ bytes "3",
            replicate (maxLength - 3) ZERO ++ bytes "abc") /\
    maxLength = (2 ^ k)%nat /\
    (1 `max` 3 <= maxLength)%nat /\
    (forall k', (1 `max` 3 <= 2 ^ k')%nat -> (maxLength <= 2 ^ k')%nat) /\
    length (replicate (maxLength - 1) ZERO ++ bytes "3") = maxLength /\
    length (replicate (maxLength - 3) ZERO ++ bytes "abc") = maxLength.
Proof.
  apply (C3_pad_to_next_power_of_two 2 (bytes "3") (bytes "abc")).
  vm_compute. lia.
Defined.

Lemma padAndAlignNumbers_same fuel k (numA numB : list char) :
  length numA = (2 ^ k)%nat -> length numB = (2 ^ k)%nat -> (k <= fuel)%nat ->
  padAndAlignNumbers fuel numA numB = Some (numA, numB).
Proof.
  intros HA HB Hk.
  rewrite padAndAlignNumbers_spec.
  - rewrite HA, HB, Nat.max_id, nextPow2_pow2, Nat.sub_diag. reflexivity.
  - rewrite HA, HB, Nat.max_id. apply Nat.pow_le_mono_r; lia.
Qed.

(** [C7] Padding is idempotent: operands that already have one common
    power-of-two length [2 ^ k] come back unchanged (the loop needs [k]
    iterations to find that out). *)
Theorem C7_pad_idempotent fuel k (numA numB : list char) :
  length numA = (2 ^ k)%nat -> length numB = (2 ^ k)%nat -> (k <= fuel)%nat ->
  padAndAlignNumbers fuel numA numB = Some (numA, numB).
Proof.
  apply padAndAlignNumbers_same.
Qed.

Lemma C7_pad_idempotent_witness :
  padAndAlignNumbers 1 (bytes "1a") (bytes "ab") = Some (bytes "1a", bytes "ab").
Proof.
  apply (C7_pad_idempotent 1 1 (bytes "1a") (bytes "ab")); [reflexivity | reflexivity | lia].
Defined.

(** [C10] The validator returns 1 on every string made only of
    hexadecimal digits (either case) and newlines, wherever the newlines
    stand; the empty string is one of them. *)
Theorem C10_validator_accepts_newlines_anywhere (s : list char) :
  Forall valid_char s -> isValidHexadecimal s = 1.
Proof. apply isValidHexadecimal_accepts. Qed.

Lemma C10_validator_accepts_newlines_anywhere_witness :
  isValidHexadecimal [NL; 49; NL; NL; 70; 97] = 1 /\ isValidHexadecimal [] = 1.
Proof.
  split.
  - apply (C10_validator_accepts_newlines_anywhere [NL; 49; NL; NL; 70; 97]).
    repeat (constructor; [first [by right | by left] |]). constructor.
  - apply (C10_validator_accepts_newlines_anywhere []). constructor.
Defined.

(** * Waiting for the children *)

Lemma waitForChildren_from_spec statuses : forall i,
  match waitForChildren_from i statuses with
  | (waited, Some j) =>
      exists n, j = (i + n)%nat /\ waited = seq i (S n) /\
                Forall child_ok (take n statuses) /\
                exists status, statuses !! n = Some status /\ ~ child_ok status
  | (waited, None) =>
      waited = seq i (length statuses) /\ Forall child_ok statuses
  end.
Proof.
  induction statuses as [| status rest IH]; intros i; cbn [waitForChildren_from].
  - split; constructor.
  - destruct (Z.eqb_spec (WEXITSTATUS status) EXIT_SUCCESS) as [Hok | Hbad].
    + specialize (IH (S i)).
      destruct (waitForChildren_from (S i) rest) as [waited [j |]].
      * destruct IH as (n & -> & -> & Hall & st & Hst & Hbad).
        exists (S n). split; [lia |]. split; [reflexivity |].
        split; [by constructor |]. by exists st.
      * destruct IH as [-> Hall]. split; [reflexivity | by constructor].
    + exists 0%nat. split; [lia |]. split; [reflexivity |].
      split; [constructor |]. by exists status.
Qed.

(** [C2], as the code has it: [waitForChildren] calls [waitpid] on the
    children in index order and leaves through [exit(EXIT_FAILURE)] at
    the first child [j] whose exit status is not [EXIT_SUCCESS]; it has
    then collected the children [0..j] and none after [j].  Only when no
    child failed have all of them been collected. *)
Theorem C2_wait_stops_at_first_failure (statuses : list Z) :
  match waitForChildren statuses with
  | (waited, Some j) =>
      waited = seq 0 (S j) /\
      Forall child_ok (take j statuses) /\
      exists status, statuses !! j = Some status /\ ~ child_ok status
  | (waited, None) =>
      waited = seq 0 (length statuses) /\ Forall child_ok statuses
  end.
Proof.
  unfold waitForChildren.
  pose proof (waitForChildren_from_spec statuses 0) as H.
  destruct (waitForChildren_from 0 statuses) as [waited [j |]]; [| exact H].
  destruct H as (n & -> & -> & Hall & Hst). auto.
Qed.

(** [C2], as stated, fails: when child 0 exits with [EXIT_FAILURE] the
    parent exits after the first [waitpid]; children 1, 2 and 3 are never
    waited for. *)
Lemma C2_exit_leaves_children_uncollected :
  waitForChildren [W_EXITCODE EXIT_FAILURE; W_EXITCODE EXIT_SUCCESS;
                   W_EXITCODE EXIT_SUCCESS; W_EXITCODE EXIT_SUCCESS]
  = ([0%nat], Some 0%nat).
Proof. reflexivity. Qed.

(** * Digit strings and their values *)

Lemma hex_value_app l k :
  hex_value (l ++ k) = hex_value l * 16 ^ Z.of_nat (length k) + hex_value k.
Proof.
  unfold hex_value. rewrite foldl_app.
  generalize (foldl (fun acc c => 16 * acc + hexDigitToInt c) 0 l) as a.
  induction k as [| c k IH] using rev_ind; intros a.
  - simpl. lia.
  - rewrite !foldl_snoc, IH, length_app. cbn [length].
    replace (Z.of_nat (length k + 1)) with (Z.succ (Z.of_nat (length k))) by lia.
    rewrite Z.pow_succ_r by lia. lia.
Qed.

Lemma hex_value_cons c l :
  hex_value (c :: l) = hexDigitToInt c * 16 ^ Z.of_nat (length l) + hex_value l.
Proof. apply (hex_value_app [c] l). Qed.

Lemma hex_value_zeros m : hex_value (replicate m ZERO) = 0.
Proof.
  induction m as [| m IH]; [reflexivity |].
  cbn [replicate]. rewrite hex_value_cons, IH, hexDigitToInt_ZERO. lia.
Qed.

Lemma hex_value_bound l :
  Forall is_hex l -> 0 <= hex_value l < 16 ^ Z.of_nat (length l).
Proof.
  induction 1 as [| c l Hc _ IH]; [cbn; lia |].
  rewrite hex_value_cons. cbn [length].
  apply hexDigitToInt_range in Hc.
  rewrite Nat2Z.inj_succ, Z.pow_succ_r by lia. nia.
Qed.

(** * Shifting *)

Lemma fmap_seq_eq (f : nat -> char) m (l : list char) :
  length l = m -> (forall j, (j < m)%nat -> l !! j = Some (f j)) ->
  f <$> seq 0 m = l.
Proof.
  intros Hlen Hl. apply list_eq. intros j. rewrite list_lookup_fmap.
  destruct (decide (j < m)%nat) as [Hj | Hj].
  - rewrite lookup_seq_lt by done. rewrite Hl by done. reflexivity.
  - rewrite lookup_seq_ge by lia. rewrite lookup_ge_None_2 by lia. reflexivity.
Qed.

Lemma lookup_total_prefix (P t : list char) j :
  (j < length P)%nat -> (P ++ t) !!! j = P !!! j.
Proof.
  intros Hj. apply list_lookup_total_correct.
  rewrite lookup_app_l by done. by apply list_lookup_lookup_total_lt.
Qed.

Section Shift.
Variables (n h : nat) (P t : list char).
Hypothesis Hn : n = (2 * h)%nat.
Hypothesis HP : length P = n.

Lemma shifted_row_0 : shifted_row n 0 (P ++ t) = P ++ replicate n ZERO.
Proof using HP.
  clear Hn. unfold shifted_row. apply fmap_seq_eq.
  - rewrite length_app, length_replicate. lia.
  - intros j Hj. unfold shifted_cell. cbn [Nat.eqb].
    destruct (Nat.ltb_spec j n).
    + rewrite lookup_total_prefix, lookup_app_l by lia.
      apply list_lookup_lookup_total_lt. lia.
    + rewrite lookup_app_r by lia. apply lookup_replicate_2. lia.
Qed.

Lemma shifted_row_mid i : i = 1%nat \/ i = 2%nat ->
  shifted_row n i (P ++ t) = replicate h ZERO ++ P ++ replicate h ZERO.
Proof.
  intros Hi. unfold shifted_row. apply fmap_seq_eq.
  - rewrite !length_app, !length_replicate. lia.
  - intros j Hj. unfold shifted_cell.
    replace (n / 2)%nat with h by (subst n; rewrite Nat.mul_comm, Nat.div_mul; lia).
    replace ((i =? 0)%nat) with false by (destruct Hi; subst; reflexivity).
    replace ((i =? 1)%nat || (i =? 2)%nat) with true by (destruct Hi; subst; reflexivity).
    destruct (Nat.ltb_spec j h).
    + rewrite lookup_app_l by (rewrite length_replicate; lia).
      apply lookup_replicate_2. lia.
    + rewrite lookup_app_r; rewrite length_replicate; [| lia].
      destruct (Nat.ltb_spec j (h + n)).
      * rewrite lookup_total_prefix, lookup_app_l by lia.
        apply list_lookup_lookup_total_lt. lia.
      * rewrite lookup_app_r by lia. apply lookup_replicate_2. lia.
Qed.

Lemma shifted_row_3 : shifted_row n 3 (P ++ t) = replicate n ZERO ++ P.
Proof using HP.
  clear Hn. unfold shifted_row. apply fmap_seq_eq.
  - rewrite length_app, length_replicate. lia.
  - intros j Hj. unfold shifted_cell. cbn [Nat.eqb orb].
    destruct (Nat.ltb_spec j n).
    + rewrite lookup_app_l by (rewrite length_replicate; lia).
      apply lookup_replicate_2. lia.
    + rewrite lookup_app_r; rewrite length_replicate; [| lia].
      rewrite lookup_total_prefix by lia.
      apply list_lookup_lookup_total_lt. lia.
Qed.
End Shift.

Lemma shiftResults_rows (n h : nat) (P0 P1 P2 P3 t0 t1 t2 t3 : list char) :
  n = (2 * h)%nat ->
  length P0 = n -> length P1 = n -> length P2 = n -> length P3 = n ->
  shiftResults n [P0 ++ t0; P1 ++ t1; P2 ++ t2; P3 ++ t3]
  = [P0 ++ replicate n ZERO;
     replicate h ZERO ++ P1 ++ replicate h ZERO;
     replicate h ZERO ++ P2 ++ replicate h ZERO;
     replicate n ZERO ++ P3].
Proof.
  intros Hn H0 H1 H2 H3. unfold shiftResults. cbn [imap compose].
  rewrite (shifted_row_0 n P0 t0 H0).
  rewrite (shifted_row_mid n h P1 t1 Hn H1 1) by auto.
  rewrite (shifted_row_mid n h P2 t2 Hn H2 2) by auto.
  rewrite (shifted_row_3 n P3 t3 H3). reflexivity.
Qed.

(** [C5] The four [n]-digit partial products (each followed in its buffer
    by whatever [getline] left after the digits, [t0..t3]) are laid out in
    rows of [2 * n] cells: row 0 is P0 followed by [n] zeros (P0 shifted
    left by [n] digits), rows 1 and 2 are P1 and P2 between [n / 2] zeros
    on either side (shifted left by [n / 2] digits), row 3 is P3 after [n]
    zeros (not shifted). *)
Theorem C5_shift_binding (n h : nat) (P0 P1 P2 P3 t0 t1 t2 t3 : list char) :
  n = (2 * h)%nat ->
  length P0 = n -> length P1 = n -> length P2 = n -> length P3 = n ->
  let rows := shiftResults n [P0 ++ t0; P1 ++ t1; P2 ++ t2; P3 ++ t3] in
  rows = [P0 ++ replicate n ZERO;
          replicate h ZERO ++ P1 ++ replicate h ZERO;
          replicate h ZERO ++ P2 ++ replicate h ZERO;
          replicate n ZERO ++ P3] /\
  Forall (fun row => length row = (2 * n)%nat) rows /\
  (hex_value <$> rows)
  = [hex_value P0 * 16 ^ Z.of_nat n; hex_value P1 * 16 ^ Z.of_nat h;
     hex_value P2 * 16 ^ Z.of_nat h; hex_value P3].
Proof.
  intros Hn H0 H1 H2 H3 rows.
  assert (Hrows : rows = [P0 ++ replicate n ZERO;
                          replicate h ZERO ++ P1 ++ replicate h ZERO;
                          replicate h ZERO ++ P2 ++ replicate h ZERO;
                          replicate n ZERO ++ P3]).
  { unfold rows. by apply shiftResults_rows. }
  split; [exact Hrows |]. rewrite Hrows. split.
  - repeat constructor; rewrite !length_app, !length_replicate; lia.
  - cbn [fmap list_fmap].
    rewrite !hex_value_app, !hex_value_zeros, !length_replicate. repeat f_equal; lia.
Qed.

Lemma C5_shift_binding_witness :
  shiftResults 2 [bytes "12" ++ [NL]; bytes "34" ++ [NL];
                  bytes "56" ++ [NL]; bytes "78" ++ [NL]]
  = [bytes "1200"; bytes "0340"; bytes "0560"; bytes "0078"].
Proof.
  apply (C5_shift_binding 2 1 (bytes "12") (bytes "34") (bytes "56") (bytes "78")
           [NL] [NL] [NL] [NL]); reflexivity.
Defined.

(** * Rendering *)

Lemma to_hex_length m v : length (to_hex m v) = m.
Proof. induction m; simpl; auto. Qed.

Lemma lower_hex_digit_intToHex v : 0 <= v <= 15 -> lower_hex_digit v = intToHex v.
Proof. intros. symmetry. by apply intToHex_lower. Qed.

Lemma to_hex_is_hex m v : Forall is_hex (to_hex m v).
Proof.
  induction m as [| m IH]; [constructor |].
  cbn [to_hex]. constructor; [| exact IH].
  pose proof (Z.mod_pos_bound (v / 16 ^ Z.of_nat m) 16).
  rewrite lower_hex_digit_intToHex by lia.
  apply is_hex_intToHex. lia.
Qed.

Lemma pow16_pos (m : nat) : 0 < 16 ^ Z.of_nat m.
Proof. apply Z.pow_pos_nonneg; lia. Qed.

Lemma pow16_succ (m : nat) : 16 ^ Z.of_nat (S m) = 16 ^ Z.of_nat m * 16.
Proof. rewrite Nat2Z.inj_succ, Z.pow_succ_r by lia. lia. Qed.

(** The digits of [to_hex m v] spell [v mod 16 ^ m]: nothing is lost
    when [0 <= v < 16 ^ m]. *)
Lemma hex_value_to_hex m v : hex_value (to_hex m v) = v mod 16 ^ Z.of_nat m.
Proof.
  induction m as [| m IH].
  - cbn. by rewrite Z.mod_1_r.
  - cbn [to_hex]. rewrite hex_value_cons, to_hex_length, IH.
    pose proof (pow16_pos m).
    pose proof (Z.mod_pos_bound (v / 16 ^ Z.of_nat m) 16).
    rewrite lower_hex_digit_intToHex, hexDigitToInt_intToHex by lia.
    rewrite pow16_succ, Z.rem_mul_r by lia. lia.
Qed.

Lemma to_hex_add_high m : forall (q : nat) v D,
  (m <= q)%nat -> to_hex m (v + D * 16 ^ Z.of_nat q) = to_hex m v.
Proof.
  induction m as [| m IH]; intros q v D Hq; [reflexivity |].
  cbn [to_hex]. rewrite IH by lia. f_equal. f_equal.
  pose proof (pow16_pos m).
  replace (Z.of_nat q) with (Z.of_nat m + (1 + Z.of_nat (q - S m))) by lia.
  rewrite Z.pow_add_r, Z.pow_add_r by lia.
  replace (D * (16 ^ Z.of_nat m * (16 ^ 1 * 16 ^ Z.of_nat (q - S m))))
    with ((D * 16 ^ Z.of_nat (q - S m) * 16) * 16 ^ Z.of_nat m) by lia.
  rewrite Z.div_add by lia.
  apply Z.mod_add. lia.
Qed.

(** * Summing the four rows *)

Lemma hex_value_drop_step (L : nat) (r : list char) i :
  length r = L -> (i < L)%nat ->
  hex_value (drop i r)
  = hexDigitToInt (r !!! i) * 16 ^ Z.of_nat (L - S i) + hex_value (drop (S i) r).
Proof.
  intros Hr Hi.
  rewrite (drop_S r (r !!! i) i) by (apply list_lookup_lookup_total_lt; lia).
  rewrite hex_value_cons, length_drop, Hr. reflexivity.
Qed.

Section Sum.
Variables (L : nat) (r0 r1 r2 r3 : list char).
Hypothesis Hlen0 : length r0 = L.
Hypothesis Hlen1 : length r1 = L.
Hypothesis Hlen2 : length r2 = L.
Hypothesis Hlen3 : length r3 = L.
Hypothesis Hhex0 : Forall is_hex r0.
Hypothesis Hhex1 : Forall is_hex r1.
Hypothesis Hhex2 : Forall is_hex r2.
Hypothesis Hhex3 : Forall is_hex r3.

Lemma suffix_total_step i : (i < L)%nat ->
  suffix_total i r0 r1 r2 r3
  = suffix_total (S i) r0 r1 r2 r3
    + column_total i r0 r1 r2 r3 ZERO * 16 ^ Z.of_nat (L - S i).
Proof using Hlen0 Hlen1 Hlen2 Hlen3.
  intros Hi. unfold suffix_total, column_total.
  rewrite !(hex_value_drop_step L _ i) by done.
  rewrite hexDigitToInt_ZERO. lia.
Qed.

Lemma suffix_total_bound k : (k <= L)%nat ->
  0 <= suffix_total k r0 r1 r2 r3 < 4 * 16 ^ Z.of_nat (L - k).
Proof using All.
  intros Hk. unfold suffix_total.
  pose proof (hex_value_bound (drop k r0) (Forall_drop _ _ _ Hhex0)) as B0.
  pose proof (hex_value_bound (drop k r1) (Forall_drop _ _ _ Hhex1)) as B1.
  pose proof (hex_value_bound (drop k r2) (Forall_drop _ _ _ Hhex2)) as B2.
  pose proof (hex_value_bound (drop k r3) (Forall_drop _ _ _ Hhex3)) as B3.
  rewrite length_drop in B0, B1, B2, B3.
  rewrite Hlen0 in B0. rewrite Hlen1 in B1. rewrite Hlen2 in B2. rewrite Hlen3 in B3.
  lia.
Qed.

(** The loop invariant: the columns [k ..] of [final_result] hold the
    low digits of the sum of the rows' columns [k ..], and
    [carry_digit] holds what is left of that sum. *)
Lemma sum_loop_spec k : (k <= L)%nat -> forall final c,
  length final = L ->
  drop k final = to_hex (L - k) (suffix_total k r0 r1 r2 r3) ->
  c = intToHex (suffix_total k r0 r1 r2 r3 / 16 ^ Z.of_nat (L - k)) ->
  sum_loop k [r0; r1; r2; r3] final c
  = (to_hex L (suffix_total 0 r0 r1 r2 r3),
     intToHex (suffix_total 0 r0 r1 r2 r3 / 16 ^ Z.of_nat L)).
Proof using All.
  induction k as [| i IH]; intros Hk final c Hfinal Hdrop Hc.
  - cbn [sum_loop]. rewrite drop_0, Nat.sub_0_r in Hdrop.
    rewrite Nat.sub_0_r in Hc. by rewrite Hdrop, Hc.
  - cbn [sum_loop].
    set (m := (L - S i)%nat) in *.
    pose proof (suffix_total_bound (S i) Hk) as Hb. fold m in Hb.
    pose proof (suffix_total_step i ltac:(lia)) as Hstep. fold m in Hstep.
    pose proof (pow16_pos m) as Hpos.
    set (ST' := suffix_total (S i) r0 r1 r2 r3) in *.
    set (ST := suffix_total i r0 r1 r2 r3) in *.
    assert (Hq : 0 <= ST' / 16 ^ Z.of_nat m <= 3).
    { split; [apply Z.div_pos; lia |].
      apply Z.lt_succ_r, Z.div_lt_upper_bound; lia. }
    assert (Hcin : hexDigitToInt c = ST' / 16 ^ Z.of_nat m)
      by (rewrite Hc; apply hexDigitToInt_intToHex; lia).
    assert (Hc_hex : is_hex c) by (rewrite Hc; apply is_hex_intToHex; lia).
    assert (Hd : forall r, length r = L -> Forall is_hex r -> is_hex (r !!! i))
      by (intros r Hr Hh; apply Forall_lookup_total_1; [done | lia]).
    rewrite sum_column_spec by auto.
    set (t := column_total i r0 r1 r2 r3 c).
    assert (Ht : ST / 16 ^ Z.of_nat m = t).
    { rewrite Hstep, Z.div_add by lia. unfold t, column_total.
      rewrite Hcin, hexDigitToInt_ZERO. lia. }
    assert (Ht16 : 0 <= t mod 16 <= 15) by (pose proof (Z.mod_pos_bound t 16); lia).
    apply IH.
    + lia.
    + by rewrite length_insert.
    + replace (L - i)%nat with (S m) by lia. cbn [to_hex].
      rewrite (drop_S _ (intToHex (t mod 16)) i)
        by (apply list_lookup_insert_eq; lia).
      rewrite drop_insert_lt by lia. rewrite Hdrop.
      rewrite Ht, lower_hex_digit_intToHex by lia. f_equal.
      fold ST ST'. rewrite Hstep. by rewrite to_hex_add_high.
    + replace (L - i)%nat with (S m) by lia.
      rewrite pow16_succ, <- Z.div_div, Ht by lia. reflexivity.
Qed.

(** The whole summation, started as [main] starts it. *)
Lemma sum_loop_total :
  let total := hex_value r0 + hex_value r1 + hex_value r2 + hex_value r3 in
  sum_loop L [r0; r1; r2; r3] (replicate L 0) ZERO
  = (to_hex L total, intToHex (total / 16 ^ Z.of_nat L)).
Proof using All.
  intros total.
  assert (Hend : suffix_total L r0 r1 r2 r3 = 0).
  { unfold suffix_total. rewrite !drop_ge by lia. reflexivity. }
  rewrite (sum_loop_spec L) by
    (rewrite ?length_replicate, ?Hend, ?Nat.sub_diag, ?drop_ge;
     rewrite ?length_replicate; done || lia).
  unfold suffix_total. rewrite !drop_0. reflexivity.
Qed.
End Sum.

Lemma column_step (i : nat) (r0 r1 r2 r3 final : list char) (cin : char) :
  is_hex (r0 !!! i) -> is_hex (r1 !!! i) ->
  is_hex (r2 !!! i) -> is_hex (r3 !!! i) -> is_hex cin ->
  let t := hexDigitToInt (r0 !!! i) + hexDigitToInt (r1 !!! i) +
           hexDigitToInt (r2 !!! i) + hexDigitToInt (r3 !!! i) +
           hexDigitToInt cin in
  exists digit carry,
    sum_column i [r0; r1; r2; r3] (cin, ZERO) = (digit, carry) /\
    hexDigitToInt digit = t mod 16 /\
    hexDigitToInt carry = t / 16 /\
    sum_loop (S i) [r0; r1; r2; r3] final cin
    = sum_loop i [r0; r1; r2; r3] (<[i := digit]> final) carry.
Proof.
  intros H0 H1 H2 H3 Hc t.
  pose proof (sum_column_spec i r0 r1 r2 r3 cin H0 H1 H2 H3 Hc) as Hcol.
  cbv zeta in Hcol. change (column_total i r0 r1 r2 r3 cin) with t in Hcol.
  apply hexDigitToInt_range in H0, H1, H2, H3, Hc.
  assert (0 <= t <= 75) by (unfold t; lia).
  exists (intToHex (t mod 16)), (intToHex (t / 16)).
  split; [exact Hcol |].
  split; [apply hexDigitToInt_intToHex; pose proof (Z.mod_pos_bound t 16); lia |].
  split; [apply hexDigitToInt_intToHex; Z.div_mod_to_equations; lia |].
  cbn [sum_loop]. rewrite Hcol. reflexivity.
Qed.

Section Columns.
Variables (L : nat) (r0 r1 r2 r3 : list char).
Hypothesis Hlen0 : length r0 = L.
Hypothesis Hlen1 : length r1 = L.
Hypothesis Hlen2 : length r2 = L.
Hypothesis Hlen3 : length r3 = L.
Hypothesis Hhex0 : Forall is_hex r0.
Hypothesis Hhex1 : Forall is_hex r1.
Hypothesis Hhex2 : Forall is_hex r2.
Hypothesis Hhex3 : Forall is_hex r3.

Lemma column_digits_hex i : (i < L)%nat ->
  is_hex (r0 !!! i) /\ is_hex (r1 !!! i) /\ is_hex (r2 !!! i) /\ is_hex (r3 !!! i).
Proof using All.
  intros Hi. repeat split; apply Forall_lookup_total_1; (done || lia).
Qed.

Lemma digits_at_range i : (i < L)%nat -> 0 <= digits_at i r0 r1 r2 r3 <= 60.
Proof using All.
  intros Hi. destruct (column_digits_hex i Hi) as (H0 & H1 & H2 & H3).
  apply hexDigitToInt_range in H0, H1, H2, H3. unfold digits_at. lia.
Qed.

Lemma carry_out_range m : (m <= L)%nat -> 0 <= carry_out m L r0 r1 r2 r3 <= 3.
Proof using All.
  induction m as [| m IH]; intros Hm; cbn [carry_out]; [lia |].
  pose proof (digits_at_range (L - S m) ltac:(lia)).
  specialize (IH ltac:(lia)). Z.div_mod_to_equations; lia.
Qed.

Lemma carry_out_step i : (i < L)%nat ->
  carry_out (L - i) L r0 r1 r2 r3
  = (digits_at i r0 r1 r2 r3 + carry_out (L - S i) L r0 r1 r2 r3) / 16.
Proof using All.
  intros Hi. replace (L - i)%nat with (S (L - S i)) by lia.
  cbn [carry_out]. by replace (L - S (L - S i))%nat with i by lia.
Qed.

(** The loop invariant, column by column: once the columns [k ..] are
    done the carry cell holds the carry out of them; the remaining turns
    write each column [i < k] with its digit and leave the others alone. *)
Lemma sum_loop_columns k : (k <= L)%nat -> forall final c,
  length final = L ->
  c = intToHex (carry_out (L - k) L r0 r1 r2 r3) ->
  length (fst (sum_loop k [r0; r1; r2; r3] final c)) = L /\
  snd (sum_loop k [r0; r1; r2; r3] final c)
  = intToHex (carry_out L L r0 r1 r2 r3) /\
  (forall i, (i < k)%nat ->
     fst (sum_loop k [r0; r1; r2; r3] final c) !! i
     = Some (intToHex ((digits_at i r0 r1 r2 r3 +
                        carry_out (L - S i) L r0 r1 r2 r3) mod 16))) /\
  (forall i, (k <= i)%nat ->
     fst (sum_loop k [r0; r1; r2; r3] final c) !! i = final !! i).
Proof using All.
  induction k as [| j IH]; intros Hk final c Hfinal Hc.
  - cbn [sum_loop fst snd]. rewrite Nat.sub_0_r in Hc.
    repeat split; try done. intros i Hi. lia.
  - cbn [sum_loop].
    destruct (column_digits_hex j ltac:(lia)) as (H0 & H1 & H2 & H3).
    pose proof (carry_out_range (L - S j) ltac:(lia)) as Hcr.
    pose proof (digits_at_range j ltac:(lia)) as Hdr.
    assert (Hc_hex : is_hex c) by (rewrite Hc; apply is_hex_intToHex; lia).
    rewrite sum_column_spec by done.
    set (t := column_total j r0 r1 r2 r3 c).
    assert (Ht : t = digits_at j r0 r1 r2 r3 + carry_out (L - S j) L r0 r1 r2 r3).
    { unfold t, column_total, digits_at. rewrite Hc, hexDigitToInt_intToHex by lia.
      reflexivity. }
    destruct (IH ltac:(lia) (<[j := intToHex (t mod 16)]> final) (intToHex (t / 16)))
      as (Hl & Hcarry & Hlow & Hhigh).
    + by rewrite length_insert.
    + by rewrite carry_out_step, Ht by lia.
    + split; [exact Hl |]. split; [exact Hcarry |]. split.
      * intros i Hi. destruct (decide (i = j)) as [-> | Hne].
        -- rewrite Hhigh by lia. rewrite list_lookup_insert_eq by lia.
           by rewrite Ht.
        -- apply Hlow. lia.
      * intros i Hi. rewrite Hhigh by lia.
        apply list_lookup_insert_ne. lia.
Qed.
End Columns.

(** [C4] The combiner adds the four rows digit by digit, from the least
    significant column to the most significant one.
    - One turn of the loop, at any column [i] with any incoming carry
      [cin]: the four calls of [addHexDigits], which pile the carry up
      addend by addend, leave the digit [(d0+d1+d2+d3+cin) mod 16] in
      [final_result[i]] and hand [(d0+d1+d2+d3+cin) div 16] as carry to
      column [i - 1].
    - The whole loop, on four rows of [2 * n] digits: every cell
      [final_result[i]] ends up holding
      [(d0+d1+d2+d3+carry_in) mod 16], where [carry_in] is the carry out
      of the columns to the right of [i] ([carry_out]: zero into the
      rightmost column, then [(d0+d1+d2+d3+carry_in) div 16] from each
      column to the next), and [carry_digit] ends up holding the carry
      out of all [2 * n] columns. *)
Theorem C4_column_sum (r0 r1 r2 r3 : list char) :
  (forall (i : nat) (final : list char) (cin : char),
     is_hex (r0 !!! i) -> is_hex (r1 !!! i) ->
     is_hex (r2 !!! i) -> is_hex (r3 !!! i) -> is_hex cin ->
     let t := hexDigitToInt (r0 !!! i) + hexDigitToInt (r1 !!! i) +
              hexDigitToInt (r2 !!! i) + hexDigitToInt (r3 !!! i) +
              hexDigitToInt cin in
     exists digit carry,
       sum_column i [r0; r1; r2; r3] (cin, ZERO) = (digit, carry) /\
       hexDigitToInt digit = t mod 16 /\
       hexDigitToInt carry = t / 16 /\
       sum_loop (S i) [r0; r1; r2; r3] final cin
       = sum_loop i [r0; r1; r2; r3] (<[i := digit]> final) carry) /\
  (forall n : nat,
     length r0 = (2 * n)%nat -> length r1 = (2 * n)%nat ->
     length r2 = (2 * n)%nat -> length r3 = (2 * n)%nat ->
     Forall is_hex r0 -> Forall is_hex r1 -> Forall is_hex r2 -> Forall is_hex r3 ->
     let '(final_result, carry_digit) := sumResults n [r0; r1; r2; r3] in
     length final_result = (2 * n)%nat /\
     (forall i, (i < 2 * n)%nat ->
        exists digit,
          final_result !! i = Some digit /\
          hexDigitToInt digit
          = (digits_at i r0 r1 r2 r3 +
             carry_out (2 * n - S i) (2 * n) r0 r1 r2 r3) mod 16 /\
          digit = intToHex (hexDigitToInt digit)) /\
     hexDigitToInt carry_digit = carry_out (2 * n) (2 * n) r0 r1 r2 r3 /\
     carry_digit = intToHex (hexDigitToInt carry_digit)).
Proof.
  split; [intros i final cin; apply column_step |].
  intros n L0 L1 L2 L3 H0 H1 H2 H3. unfold sumResults.
  destruct (sum_loop_columns (2 * n) r0 r1 r2 r3 L0 L1 L2 L3 H0 H1 H2 H3
              (2 * n) ltac:(lia) (replicate (2 * n) 0) ZERO)
    as (Hl & Hcarry & Hlow & _).
  { apply length_replicate. }
  { by rewrite Nat.sub_diag. }
  destruct (sum_loop (2 * n) [r0; r1; r2; r3] (replicate (2 * n) 0) ZERO)
    as [final_result carry_digit].
  cbn [fst snd] in *.
  pose proof (carry_out_range (2 * n) r0 r1 r2 r3 L0 L1 L2 L3 H0 H1 H2 H3
                (2 * n) ltac:(lia)) as Hcr.
  split; [exact Hl |]. split.
  - intros i Hi. eexists. split; [by apply Hlow |].
    pose proof (Z.mod_pos_bound
                  (digits_at i r0 r1 r2 r3 +
                   carry_out (2 * n - S i) (2 * n) r0 r1 r2 r3) 16).
    rewrite hexDigitToInt_intToHex by lia. done.
  - rewrite Hcarry, hexDigitToInt_intToHex by lia. done.
Qed.

Lemma C4_column_sum_witness :
  (exists digit carry,
     sum_column 1 [bytes "0f"; bytes "0F"; bytes "0e"; bytes "09"] (51, ZERO)
     = (digit, carry) /\
     hexDigitToInt digit = (15 + 15 + 14 + 9 + 3) mod 16 /\
     hexDigitToInt carry = (15 + 15 + 14 + 9 + 3) / 16 /\
     sum_loop 2 [bytes "0f"; bytes "0F"; bytes "0e"; bytes "09"] [0; 0] 51
     = sum_loop 1 [bytes "0f"; bytes "0F"; bytes "0e"; bytes "09"]
         (<[1%nat := digit]> [0; 0]) carry) /\
  (exists digit,
     fst (sumResults 1 [bytes "0f"; bytes "0F"; bytes "0e"; bytes "09"]) !! 0%nat
     = Some digit /\
     hexDigitToInt digit
     = (digits_at 0 (bytes "0f") (bytes "0F") (bytes "0e") (bytes "09") +
        carry_out 1 2 (bytes "0f") (bytes "0F") (bytes "0e") (bytes "09")) mod 16 /\
     digit = intToHex (hexDigitToInt digit)) /\
  hexDigitToInt (snd (sumResults 1 [bytes "0f"; bytes "0F"; bytes "0e"; bytes "09"]))
  = carry_out 2 2 (bytes "0f") (bytes "0F") (bytes "0e") (bytes "09").
Proof.
  destruct (C4_column_sum (bytes "0f") (bytes "0F") (bytes "0e") (bytes "09"))
    as [Hturn Hloop].
  split; [apply (Hturn 1%nat [0; 0] 51); reflexivity |].
  specialize (Hloop 1%nat eq_refl eq_refl eq_refl eq_refl
                ltac:(by repeat constructor) ltac:(by repeat constructor)
                ltac:(by repeat constructor) ltac:(by repeat constructor)).
  destruct (sumResults 1 [bytes "0f"; bytes "0F"; bytes "0e"; bytes "09"])
    as [final_result carry_digit].
  destruct Hloop as (_ & Hcols & Hcarry & _).
  split; [apply (Hcols 0%nat); lia | exact Hcarry].
Defined.

(** * The combiner *)

Lemma combine_spec (n h : nat) (P0 P1 P2 P3 t0 t1 t2 t3 : list char) :
  n = (2 * h)%nat ->
  length P0 = n -> length P1 = n -> length P2 = n -> length P3 = n ->
  Forall is_hex P0 -> Forall is_hex P1 -> Forall is_hex P2 -> Forall is_hex P3 ->
  let total := hex_value P0 * 16 ^ Z.of_nat n + hex_value P1 * 16 ^ Z.of_nat h +
               hex_value P2 * 16 ^ Z.of_nat h + hex_value P3 in
  sumResults n (shiftResults n [P0 ++ t0; P1 ++ t1; P2 ++ t2; P3 ++ t3])
  = (to_hex (2 * n) total, intToHex (total / 16 ^ Z.of_nat (2 * n))).
Proof.
  intros Hn H0 H1 H2 H3 X0 X1 X2 X3 total.
  rewrite (shiftResults_rows n h) by done. unfold sumResults.
  pose proof (Forall_replicate is_hex n _ is_hex_ZERO) as Zn.
  pose proof (Forall_replicate is_hex h _ is_hex_ZERO) as Zh.
  rewrite (sum_loop_total (2 * n));
    rewrite ?length_app, ?length_replicate, ?Forall_app; try lia; auto.
  rewrite !hex_value_app, !hex_value_zeros, !length_replicate.
  unfold total. repeat f_equal; lia.
Qed.

(** What the four true partial products add up to. *)
Lemma product_of_halves (h : nat) (ah al bh bl : Z) :
  let n := (2 * h)%nat in
  0 <= ah < 16 ^ Z.of_nat h -> 0 <= al < 16 ^ Z.of_nat h ->
  0 <= bh < 16 ^ Z.of_nat h -> 0 <= bl < 16 ^ Z.of_nat h ->
  let total := (ah * bh) * 16 ^ Z.of_nat n + (ah * bl) * 16 ^ Z.of_nat h +
               (al * bh) * 16 ^ Z.of_nat h + al * bl in
  total = (ah * 16 ^ Z.of_nat h + al) * (bh * 16 ^ Z.of_nat h + bl) /\
  0 <= total < 16 ^ Z.of_nat (2 * n).
Proof.
  intros n Hah Hal Hbh Hbl total. unfold total, n.
  replace (Z.of_nat (2 * (2 * h))) with (Z.of_nat (2 * h) + Z.of_nat (2 * h)) by lia.
  replace (Z.of_nat (2 * h)) with (Z.of_nat h + Z.of_nat h) by lia.
  rewrite !Z.pow_add_r by lia.
  set (w := 16 ^ Z.of_nat h) in *.
  assert (Heq : ah * bh * (w * w) + ah * bl * w + al * bh * w + al * bl
                = (ah * w + al) * (bh * w + bl)) by ring.
  split; [exact Heq |]. rewrite Heq.
  assert (0 <= ah * w + al < w * w) by nia.
  assert (0 <= bh * w + bl < w * w) by nia.
  split; [apply Z.mul_nonneg_nonneg; lia |].
  apply Z.mul_lt_mono_nonneg; lia.
Qed.

(** [C8] When the four partial products are the true products of the
    half operands ([ah], [al], [bh], [bl], each below [16 ^ (n / 2)]),
    the carry left after the most significant column is ['0'], and
    [final_result] holds the full product of the two operands in [2 * n]
    digits. *)
Theorem C8_no_final_carry (n h : nat) (P0 P1 P2 P3 t0 t1 t2 t3 : list char)
    (ah al bh bl : Z) :
  n = (2 * h)%nat ->
  length P0 = n -> length P1 = n -> length P2 = n -> length P3 = n ->
  Forall is_hex P0 -> Forall is_hex P1 -> Forall is_hex P2 -> Forall is_hex P3 ->
  0 <= ah < 16 ^ Z.of_nat h -> 0 <= al < 16 ^ Z.of_nat h ->
  0 <= bh < 16 ^ Z.of_nat h -> 0 <= bl < 16 ^ Z.of_nat h ->
  hex_value P0 = ah * bh -> hex_value P1 = ah * bl ->
  hex_value P2 = al * bh -> hex_value P3 = al * bl ->
  let product := (ah * 16 ^ Z.of_nat h + al) * (bh * 16 ^ Z.of_nat h + bl) in
  let '(final_result, carry_digit) :=
    sumResults n (shiftResults n [P0 ++ t0; P1 ++ t1; P2 ++ t2; P3 ++ t3]) in
  carry_digit = ZERO /\
  hexDigitToInt carry_digit = 0 /\
  final_result = to_hex (2 * n) product /\
  hex_value final_result = product.
Proof.
  intros Hn H0 H1 H2 H3 X0 X1 X2 X3 Hah Hal Hbh Hbl V0 V1 V2 V3 product.
  rewrite (combine_spec n h) by done.
  rewrite V0, V1, V2, V3.
  destruct (product_of_halves h ah al bh bl Hah Hal Hbh Hbl) as [Heq Hb].
  cbv zeta in Heq, Hb. rewrite <- Hn in Heq, Hb. rewrite Heq. fold product.
  fold product in Heq. rewrite Heq in Hb.
  rewrite Z.div_small by lia.
  split; [reflexivity |]. split; [reflexivity |]. split; [reflexivity |].
  rewrite hex_value_to_hex. apply Z.mod_small. lia.
Qed.

Lemma C8_no_final_carry_witness :
  let '(final_result, carry_digit) :=
    sumResults 2 (shiftResults 2 [bytes "0f" ++ [NL]; bytes "12" ++ [NL];
                                  bytes "14" ++ [NL]; bytes "18" ++ [NL]]) in
  carry_digit = ZERO /\
  hexDigitToInt carry_digit = 0 /\
  final_result = to_hex (2 * 2) ((3 * 16 ^ Z.of_nat 1 + 4) * (5 * 16 ^ Z.of_nat 1 + 6)) /\
  hex_value final_result = (3 * 16 ^ Z.of_nat 1 + 4) * (5 * 16 ^ Z.of_nat 1 + 6).
Proof.
  apply (C8_no_final_carry 2 1 (bytes "0f") (bytes "12") (bytes "14") (bytes "18")
           [NL] [NL] [NL] [NL] 3 4 5 6);
    first [reflexivity | by repeat constructor | (cbn; lia)].
Defined.

(** * Reading two operands *)

Lemma read_line_app (A rest : list char) :
  Forall (fun c => c <> NL) A -> read_line (A ++ NL :: rest) = (A ++ [NL], rest).
Proof.
  induction 1 as [| c A Hc _ IH]; [reflexivity |].
  cbn [app read_line]. rewrite IH.
  destruct (Z.eqb_spec c NL); done.
Qed.

Lemma read_line_eof (A : list char) :
  Forall (fun c => c <> NL) A -> read_line A = (A, []).
Proof.
  induction 1 as [| c A Hc _ IH]; [reflexivity |].
  cbn [read_line]. rewrite IH. destruct (Z.eqb_spec c NL); done.
Qed.

Lemma c_str_id (A : list char) : Forall (fun c => c <> 0) A -> c_str A = A.
Proof.
  induction 1 as [| c A Hc _ IH]; [reflexivity |].
  cbn [c_str]. rewrite IH. destruct (Z.eqb_spec c 0); done.
Qed.

Lemma hex_no_NL (A : list char) : Forall is_hex A -> Forall (fun c => c <> NL) A.
Proof. intros H. eapply Forall_impl; [exact H | apply is_hex_not_NL]. Qed.

Lemma hex_no_NUL (A : list char) : Forall is_hex A -> Forall (fun c => c <> 0) A.
Proof. intros H. eapply Forall_impl; [exact H | apply is_hex_not_NUL]. Qed.

Lemma trim_newline_snoc (A : list char) : trim_newline (A ++ [NL]) = A.
Proof.
  unfold trim_newline. rewrite length_app. cbn [length].
  replace (length A + 1 - 1)%nat with (length A) by lia.
  replace ((A ++ [NL]) !!! length A) with NL.
  - replace (0 <? length A + 1)%nat with true by (symmetry; apply Nat.ltb_lt; lia).
    cbn. by rewrite take_app_length.
  - symmetry. apply list_lookup_total_correct.
    rewrite lookup_app_r by lia. by rewrite Nat.sub_diag.
Qed.

Lemma trim_newline_hex (A : list char) : Forall is_hex A -> trim_newline A = A.
Proof.
  intros HA. unfold trim_newline.
  destruct (Nat.ltb_spec 0 (length A)) as [Hlen |]; [| reflexivity].
  assert (Hlast : is_hex (A !!! (length A - 1)%nat))
    by (apply Forall_lookup_total_1; [done | lia]).
  apply is_hex_not_NL in Hlast.
  destruct (Z.eqb_spec (A !!! (length A - 1)%nat) NL); done.
Qed.

Lemma hex_line_not_empty (A t : list char) :
  A <> [] -> Forall is_hex A ->
  (length (A ++ t) =? 1)%nat && ((A ++ t) !!! 0%nat =? NL) = false.
Proof.
  intros Hne HA. destruct HA as [| c A Hc _]; [done |].
  apply is_hex_not_NL in Hc. cbn.
  destruct (Z.eqb_spec c NL); [done |]. apply andb_false_r.
Qed.

Lemma hex_line_valid (A t : list char) :
  Forall is_hex A -> t = [] \/ t = [NL] ->
  (isValidHexadecimal (A ++ t) =? 0) = false.
Proof.
  intros HA Ht. rewrite isValidHexadecimal_accepts; [reflexivity |].
  apply Forall_app. split.
  - eapply Forall_impl; [exact HA |]. intros c Hc. by left.
  - destruct Ht as [-> | ->]; [constructor |].
    constructor; [by right | constructor].
Qed.

Lemma readInput_valid (A B tail : list char) :
  A <> [] -> B <> [] -> Forall is_hex A -> Forall is_hex B -> end_of_line tail ->
  readInput (A ++ [NL] ++ B ++ tail) = inr (A, B).
Proof.
  intros HneA HneB HA HB Htail. unfold readInput, getline.
  destruct (A ++ [NL] ++ B ++ tail) as [| x0 l0] eqn:Hstream;
    [destruct A; [done | discriminate] |]. rewrite <- Hstream. clear Hstream x0 l0.
  cbn [app]. rewrite read_line_app by by apply hex_no_NL.
  rewrite hex_line_not_empty by done.
  destruct (B ++ tail) as [| x0 l0] eqn:Hstream; [destruct B; [done | discriminate] |].
  rewrite <- Hstream. clear Hstream x0 l0.
  assert (Hline : exists t, (t = [] \/ t = [NL]) /\
                            fst (read_line (B ++ tail)) = B ++ t) .
  { destruct Htail as [-> | Hhd].
    - exists []. rewrite !app_nil_r, read_line_eof by by apply hex_no_NL. auto.
    - destruct tail as [| c rest]; [done |]. injection Hhd as ->.
      exists [NL]. rewrite read_line_app by by apply hex_no_NL. auto. }
  destruct Hline as (t & Ht & Hline).
  destruct (read_line (B ++ tail)) as [bufB rest]. cbn [fst] in Hline. subst bufB.
  rewrite hex_line_not_empty by done.
  rewrite (hex_line_valid A [NL]), (hex_line_valid B t) by auto.
  rewrite !c_str_id.
  - rewrite trim_newline_snoc. destruct Ht as [-> | ->].
    + by rewrite app_nil_r, trim_newline_hex.
    + by rewrite trim_newline_snoc.
  - apply Forall_app. split; [by apply hex_no_NUL |].
    destruct Ht as [-> | ->]; repeat constructor. done.
  - apply Forall_app. split; [by apply hex_no_NUL |]. repeat constructor. done.
Qed.

(** * The single-digit case *)

Lemma printf_02x_byte (n : Z) : 0 <= n < 256 -> printf_02x n = to_hex 2 n.
Proof.
  intros Hn. unfold printf_02x. rewrite Z.mod_small by lia.
  cbn [to_hex hex_of]. change (16 ^ Z.of_nat 1) with 16. change (16 ^ Z.of_nat 0) with 1.
  rewrite Z.div_1_r.
  destruct (Z.ltb_spec n 16) as [Hlt | Hge].
  - rewrite Z.div_small, (Z.mod_small n 16) by lia. reflexivity.
  - assert (n / 16 < 16) by (apply Z.div_lt_upper_bound; lia).
    destruct (Z.ltb_spec (n / 16) 16); [| lia].
    rewrite (Z.mod_small (n / 16) 16); [reflexivity |].
    split; [apply Z.div_pos; lia | done].
Qed.

Lemma single_digit_case_spec (a b : char) :
  is_hex a -> is_hex b ->
  single_digit_case [a] [b]
  = to_hex 2 (hexDigitToInt a * hexDigitToInt b) ++ [NL].
Proof.
  intros Ha Hb. unfold single_digit_case. cbn [lookup_total list_lookup_total].
  rewrite !hexDigitToInt_tolower by done.
  apply hexDigitToInt_range in Ha, Hb.
  rewrite printf_02x_byte; [reflexivity | nia].
Qed.

(** * The whole program *)

Lemma getline_line (P : list char) :
  Forall is_hex P -> getline (P ++ [NL]) = Some (P ++ [NL], []).
Proof.
  intros HP. unfold getline.
  destruct (P ++ [NL]) as [| x0 l0] eqn:Hs; [destruct P; discriminate |].
  rewrite <- Hs. by rewrite read_line_app by by apply hex_no_NL.
Qed.

Lemma pow2_S_half k : (2 ^ S k / 2 = 2 ^ k)%nat.
Proof. rewrite Nat.pow_succ_r', Nat.mul_comm, Nat.div_mul; lia. Qed.

Lemma pow2_length_nonempty k (A : list char) : length A = (2 ^ k)%nat -> A <> [].
Proof. intros Hl ->. pose proof (pow2_pos k). cbn [length] in Hl. lia. Qed.

Lemma main_pow2 k : forall fuel (A B tail : list char),
  (k < fuel)%nat ->
  length A = (2 ^ k)%nat -> length B = (2 ^ k)%nat ->
  Forall is_hex A -> Forall is_hex B -> end_of_line tail ->
  main fuel 1 (A ++ [NL] ++ B ++ tail)
  = Some (ok_result (to_hex (2 * 2 ^ k) (hex_value A * hex_value B))).
Proof.
  induction k as [| k IH]; intros fuel A B tail Hfuel HlA HlB HA HB Htail;
    (destruct fuel as [| f]; [lia |]);
    pose proof (pow2_length_nonempty _ _ HlA) as HneA;
    pose proof (pow2_length_nonempty _ _ HlB) as HneB;
    cbn [main]; change (negb (1 =? 1)) with false; cbn iota;
    rewrite readInput_valid by done.
  - rewrite (padAndAlignNumbers_same f 0) by (done || lia).
    rewrite HlA. cbn [Nat.pow Nat.ltb Nat.leb Nat.eqb].
    destruct A as [| a [| ? ?]]; try discriminate.
    destruct B as [| b [| ? ?]]; try discriminate.
    apply Forall_inv in HA, HB.
    rewrite single_digit_case_spec by done.
    unfold hex_value. cbn [foldl]. rewrite !Z.mul_0_r, !Z.add_0_l. reflexivity.
  - rewrite (padAndAlignNumbers_same f (S k)) by (done || lia).
    rewrite HlA.
    replace (1 <? 2 ^ S k)%nat with true
      by (symmetry; apply Nat.ltb_lt; pose proof (pow2_pos k); cbn; lia).
    unfold splitNumbers. rewrite HlA, pow2_S_half.
    assert (Hn : (2 ^ S k = 2 * 2 ^ k)%nat) by apply Nat.pow_succ_r'.
    remember (2 ^ k)%nat as h eqn:Hh.
    remember (2 ^ S k)%nat as n eqn:Hn'. clear Hn'.
    set (Ah := take h A). set (Al := take h (drop h A)).
    set (Bh := take h B). set (Bl := take h (drop h B)).
    assert (HsplitA : A = Ah ++ Al).
    { unfold Ah, Al. rewrite (take_ge (drop h A)) by (rewrite length_drop; lia).
      by rewrite take_drop. }
    assert (HsplitB : B = Bh ++ Bl).
    { unfold Bh, Bl. rewrite (take_ge (drop h B)) by (rewrite length_drop; lia).
      by rewrite take_drop. }
    assert (HlAh : length Ah = h) by (unfold Ah; rewrite length_take; lia).
    assert (HlBh : length Bh = h) by (unfold Bh; rewrite length_take; lia).
    assert (HlAl : length Al = h)
      by (unfold Al; rewrite length_take, length_drop; lia).
    assert (HlBl : length Bl = h)
      by (unfold Bl; rewrite length_take, length_drop; lia).
    assert (HAh : Forall is_hex Ah /\ Forall is_hex Al)
      by (apply Forall_app; by rewrite <- HsplitA).
    assert (HBh : Forall is_hex Bh /\ Forall is_hex Bl)
      by (apply Forall_app; by rewrite <- HsplitB).
    destruct HAh as [HAh HAl]. destruct HBh as [HBh HBl].
    assert (Hchild : forall X Y, length X = h -> length Y = h ->
              Forall is_hex X -> Forall is_hex Y ->
              main f 1 (sendInputToChild X Y)
              = Some (ok_result (to_hex n (hex_value X * hex_value Y)))).
    { intros X Y HlX HlY HX HY. unfold sendInputToChild. rewrite Hn.
      apply IH; try done; [lia | by right]. }
    rewrite (mapM_Some_2 _ _
               [ok_result (to_hex n (hex_value Ah * hex_value Bh));
                ok_result (to_hex n (hex_value Ah * hex_value Bl));
                ok_result (to_hex n (hex_value Al * hex_value Bh));
                ok_result (to_hex n (hex_value Al * hex_value Bl))])
      by (repeat constructor; by apply Hchild).
    change (waitForChildren _) with ([0; 1; 2; 3]%nat, @None nat). cbv iota beta.
    unfold read_results.
    rewrite (mapM_Some_2 _ _
               [to_hex n (hex_value Ah * hex_value Bh) ++ [NL];
                to_hex n (hex_value Ah * hex_value Bl) ++ [NL];
                to_hex n (hex_value Al * hex_value Bh) ++ [NL];
                to_hex n (hex_value Al * hex_value Bl) ++ [NL]])
      by (repeat constructor; cbn [stdout ok_result];
          by rewrite getline_line by apply to_hex_is_hex).
    rewrite (combine_spec n h) by (done || apply to_hex_length || apply to_hex_is_hex).
    cbv iota beta. unfold ok_result. do 3 f_equal.
    pose proof (hex_value_bound _ HAh) as BAh. pose proof (hex_value_bound _ HAl) as BAl.
    pose proof (hex_value_bound _ HBh) as BBh. pose proof (hex_value_bound _ HBl) as BBl.
    rewrite HlAh in BAh. rewrite HlAl in BAl. rewrite HlBh in BBh. rewrite HlBl in BBl.
    assert (Hsq : 16 ^ Z.of_nat n = 16 ^ Z.of_nat h * 16 ^ Z.of_nat h)
      by (rewrite <- Z.pow_add_r by lia; f_equal; lia).
    rewrite !hex_value_to_hex.
    rewrite !Z.mod_small by (rewrite Hsq; split;
      [apply Z.mul_nonneg_nonneg; lia | apply Z.mul_lt_mono_nonneg; lia]).
    destruct (product_of_halves h _ _ _ _ BAh BAl BBh BBl) as [Heq _].
    cbv zeta in Heq. rewrite <- Hn in Heq. rewrite Heq.
    rewrite HsplitA, HsplitB, !hex_value_app, HlAl, HlBl. reflexivity.
Qed.

Lemma hex_value_padded (m : nat) (A : list char) :
  hex_value (replicate m ZERO ++ A) = hex_value A.
Proof. rewrite hex_value_app, hex_value_zeros. lia. Qed.

(** A run on two operands does what a run on the padded operands does. *)
Lemma main_after_padding f (A B tail : list char) :
  A <> [] -> B <> [] -> Forall is_hex A -> Forall is_hex B -> end_of_line tail ->
  (Nat.log2_up (length A `max` length B) <= f)%nat ->
  let N := nextPow2 (length A `max` length B) in
  main (S f) 1 (A ++ [NL] ++ B ++ tail)
  = main (S f) 1 ((replicate (N - length A) ZERO ++ A) ++ [NL] ++
                  (replicate (N - length B) ZERO ++ B) ++ [NL]).
Proof.
  intros HneA HneB HA HB Htail Hf N.
  pose proof (nextPow2_ge (length A `max` length B)) as Hge. fold N in Hge.
  assert (HN : (N <= 2 ^ f)%nat) by (apply Nat.pow_le_mono_r; lia).
  cbn [main]. change (negb (1 =? 1)) with false. cbn iota.
  rewrite !readInput_valid;
    try done; try (by right);
    try (apply Forall_app; split; [by apply Forall_replicate | done]);
    try (intros [_ ?]%app_eq_nil; done).
  rewrite padAndAlignNumbers_spec by lia. fold N.
  rewrite (padAndAlignNumbers_same f (Nat.log2_up (length A `max` length B))
             (replicate (N - length A) ZERO ++ A)
             (replicate (N - length B) ZERO ++ B));
    [reflexivity | | | done];
    rewrite length_app, length_replicate; unfold nextPow2 in *; lia.
Qed.

Lemma hexDigitToInt_is_hex c : 0 <= hexDigitToInt c -> is_hex c.
Proof. unfold hexDigitToInt, is_hex. destruct (isxdigit c); [done | lia]. Qed.

(** [C1] On two non-empty strings of hexadecimal digits [A] and [B]
    (each on its own line; the second line may end the stream), the
    program exits with status 0, prints nothing on stderr, and prints on
    stdout one line: the product of the numbers [A] and [B] in lowercase
    hexadecimal digits, zero-padded on the left to
    [2 * nextPow2 (max (length A) (length B))] digits.  The product fits
    that width.  (Fuel: one unit per level of recursion.) *)
Theorem C1_prints_product (A B tail : list char) (fuel : nat) :
  A <> [] -> B <> [] -> Forall is_hex A -> Forall is_hex B -> end_of_line tail ->
  (Nat.log2_up (length A `max` length B) < fuel)%nat ->
  let width := (2 * nextPow2 (length A `max` length B))%nat in
  let product := hex_value A * hex_value B in
  main fuel 1 (A ++ [NL] ++ B ++ tail)
  = Some (ProcessResult 0 (to_hex width product ++ [NL]) []) /\
  0 <= product < 16 ^ Z.of_nat width /\
  length (to_hex width product) = width /\
  hex_value (to_hex width product) = product.
Proof.
  intros HneA HneB HA HB Htail Hfuel width product.
  destruct fuel as [| f]; [lia |].
  set (N := nextPow2 (length A `max` length B)) in *.
  pose proof (nextPow2_ge (length A `max` length B)) as Hge. fold N in Hge.
  assert (Hbound : 0 <= product < 16 ^ Z.of_nat width).
  { pose proof (hex_value_bound _ HA) as BA. pose proof (hex_value_bound _ HB) as BB.
    assert (16 ^ Z.of_nat (length A) <= 16 ^ Z.of_nat N)
      by (apply Z.pow_le_mono_r; lia).
    assert (16 ^ Z.of_nat (length B) <= 16 ^ Z.of_nat N)
      by (apply Z.pow_le_mono_r; lia).
    unfold width, product.
    replace (Z.of_nat (2 * N)) with (Z.of_nat N + Z.of_nat N) by lia.
    rewrite Z.pow_add_r by lia.
    split; [apply Z.mul_nonneg_nonneg; lia | apply Z.mul_lt_mono_nonneg; lia]. }
  split; [| split; [exact Hbound | split; [apply to_hex_length |]]].
  - rewrite main_after_padding by (done || lia). fold N.
    rewrite (main_pow2 (Nat.log2_up (length A `max` length B)));
      try done; try lia; try (by right);
      try (rewrite length_app, length_replicate; unfold N, nextPow2 in *; lia);
      try (apply Forall_app; split; [by apply Forall_replicate | done]).
    rewrite !hex_value_padded. reflexivity.
  - rewrite hex_value_to_hex. apply Z.mod_small. exact Hbound.
Qed.

Lemma C1_prints_product_witness :
  main 2 1 (bytes "3" ++ [NL] ++ bytes "12" ++ [NL])
  = Some (ProcessResult 0 (bytes "0036" ++ [NL]) []).
Proof.
  apply (C1_prints_product (bytes "3") (bytes "12") [NL] 2);
    first [done | by repeat constructor | by right | (vm_compute; lia)].
Defined.

(** [C6] For two digit characters (either case) the single-digit branch
    prints their product, which is at most 225, as exactly two lowercase
    hexadecimal digits, high digit first, and a newline; so does the
    program run on the two one-digit lines. *)
Theorem C6_single_digit_product (ca cb : char) :
  is_hex ca -> is_hex cb ->
  let a := hexDigitToInt ca in
  let b := hexDigitToInt cb in
  let line := [lower_hex_digit (a * b / 16); lower_hex_digit (a * b mod 16); NL] in
  0 <= a <= 15 /\ 0 <= b <= 15 /\ 0 <= a * b <= 225 /\
  single_digit_case [ca] [cb] = line /\
  hex_value (take 2 line) = a * b /\
  forall fuel tail, (0 < fuel)%nat -> end_of_line tail ->
    main fuel 1 ([ca] ++ [NL] ++ [cb] ++ tail) = Some (ProcessResult 0 line []).
Proof.
  intros Ha Hb a b line.
  pose proof (hexDigitToInt_range _ Ha) as Ra. fold a in Ra.
  pose proof (hexDigitToInt_range _ Hb) as Rb. fold b in Rb.
  assert (Rp : 0 <= a * b <= 225) by nia.
  assert (Hline : to_hex 2 (a * b) ++ [NL] = line).
  { unfold line. cbn [to_hex app].
    change (16 ^ Z.of_nat 1) with 16. change (16 ^ Z.of_nat 0) with 1.
    rewrite Z.div_1_r, (Z.mod_small (a * b / 16)); [reflexivity |].
    split; [apply Z.div_pos; lia | apply Z.div_lt_upper_bound; lia]. }
  split; [exact Ra |]. split; [exact Rb |]. split; [exact Rp |].
  split; [| split].
  - rewrite single_digit_case_spec by done. exact Hline.
  - rewrite <- Hline. rewrite take_app_length' by (by rewrite to_hex_length).
    rewrite hex_value_to_hex. apply Z.mod_small. change (Z.of_nat 2) with 2. lia.
  - intros fuel tail Hfuel Htail.
    rewrite (main_pow2 0) by (done || by repeat constructor).
    unfold ok_result, hex_value. cbn [foldl].
    rewrite !Z.mul_0_r, !Z.add_0_l. fold a b.
    change (2 * 2 ^ 0)%nat with 2%nat. by rewrite Hline.
Qed.

Lemma C6_single_digit_product_witness :
  single_digit_case (bytes "f") (bytes "f") = bytes "e1" ++ [NL] /\
  main 1 1 (bytes "f" ++ [NL] ++ bytes "f" ++ [NL])
  = Some (ProcessResult 0 (bytes "e1" ++ [NL]) []).
Proof.
  destruct (C6_single_digit_product 102 102 eq_refl eq_refl)
    as (_ & _ & _ & Hcase & _ & Hmain).
  split; [exact Hcase |]. apply (Hmain 1%nat [NL]); [lia | by right].
Defined.

(** * Rejected input *)

Lemma read_line_split (stream : list char) :
  stream = fst (read_line stream) ++ snd (read_line stream).
Proof.
  induction stream as [| c rest IH]; [reflexivity |].
  cbn [read_line]. destruct (c =? NL); [reflexivity |].
  destruct (read_line rest) as [l r]. cbn [fst snd] in *. by rewrite IH at 1.
Qed.

Lemma getline_Some (stream buf rest : list char) :
  getline stream = Some (buf, rest) ->
  buf = fst (read_line stream) /\ rest = snd (read_line stream).
Proof.
  unfold getline. destruct stream as [| c s]; [discriminate |].
  intros H. replace (read_line (c :: s)) with (buf, rest) by congruence. done.
Qed.

Lemma readInput_rejects (stdin : list char) :
  ~ In 0 stdin ->
  ~ Forall valid_char (first_line stdin) \/ ~ Forall valid_char (second_line stdin) ->
  exists msg, readInput stdin = inl msg.
Proof.
  intros Hnul Hbad. unfold readInput.
  destruct (getline stdin) as [[bufA rest] |] eqn:HgA; [| eauto].
  destruct (_ && _); [eauto |].
  destruct (getline rest) as [[bufB rest'] |] eqn:HgB; [| eauto].
  destruct (_ && _); [eauto |].
  apply getline_Some in HgA as [HbufA Hrest].
  apply getline_Some in HgB as [HbufB _].
  assert (HnulA : ~ In 0 bufA /\ ~ In 0 rest).
  { rewrite (read_line_split stdin), <- HbufA, <- Hrest in Hnul.
    split; intros ?; apply Hnul, in_or_app; auto. }
  destruct HnulA as [HnulA Hnul_rest].
  assert (HnulB : ~ In 0 bufB).
  { rewrite (read_line_split rest), <- HbufB in Hnul_rest.
    intros ?; apply Hnul_rest, in_or_app; auto. }
  destruct (Z.eqb_spec (isValidHexadecimal bufA) 0) as [| HokA]; [eauto |].
  destruct (Z.eqb_spec (isValidHexadecimal bufB) 0) as [| HokB]; [eauto |].
  exfalso. unfold first_line, second_line in Hbad.
  rewrite <- Hrest, <- HbufA, <- HbufB in Hbad.
  destruct Hbad as [Hbad | Hbad].
  - apply HokA. by apply isValidHexadecimal_rejects.
  - apply HokB. by apply isValidHexadecimal_rejects.
Qed.

(** On input without NUL bytes the validation does what it is meant to:
    a character that is neither a digit nor a newline, in either line,
    ends the run with [EXIT_FAILURE], a diagnostic, and nothing printed. *)
Lemma main_rejects_bad_line (fuel : nat) (argc : Z) (stdin : list char) :
  (0 < fuel)%nat -> ~ In 0 stdin ->
  ~ Forall valid_char (first_line stdin) \/ ~ Forall valid_char (second_line stdin) ->
  exists msgs, msgs <> [] /\
    main fuel argc stdin = Some (ProcessResult EXIT_FAILURE [] msgs).
Proof.
  intros Hfuel Hnul Hbad. destruct fuel as [| f]; [lia |]. cbn [main].
  destruct (negb (argc =? 1)); [eexists; split; [| reflexivity]; done |].
  destruct (readInput_rejects stdin Hnul Hbad) as [msg ->].
  eexists; split; [| reflexivity]. done.
Qed.

(** [C9] fails on the code when a NUL byte stands before the offending
    character: [getline] stores the whole line, but [isValidHexadecimal]
    and [strlen] stop at the NUL.  Here the first line is ['1'], NUL,
    ['g'] and the second is ['2']; the run prints ["02"] and exits with
    status 0. *)
Lemma C9_nul_hides_invalid_character :
  ~ Forall valid_char (first_line [49; 0; 103; NL; 50; NL]) /\
  main 1 1 [49; 0; 103; NL; 50; NL]
  = Some (ProcessResult EXIT_SUCCESS (bytes "02" ++ [NL]) []).
Proof.
  split; [| reflexivity].
  intros H. apply Forall_cons in H as [_ H]. apply Forall_cons in H as [H _].
  destruct H as [H | H]; discriminate.
Qed.

(** * Further properties of the helper functions *)

(** ** Digit conversion *)

(** [X1] A digit value, written by [intToHex] and read back by
    [hexDigitToInt], is unchanged; what [intToHex] writes is a lowercase
    hexadecimal digit. *)
Theorem X1_value_char_value (v : Z) :
  0 <= v <= 15 ->
  hexDigitToInt (intToHex v) = v /\
  is_hex (intToHex v) /\
  tolower (intToHex v) = intToHex v.
Proof. intros Hv. digit_cases v; repeat split. Qed.

Lemma X1_value_char_value_witness :
  hexDigitToInt (intToHex 11) = 11 /\
  is_hex (intToHex 11) /\
  tolower (intToHex 11) = intToHex 11.
Proof. apply (X1_value_char_value 11). lia. Defined.

(** [X2] A digit character, read by [hexDigitToInt] and written back by
    [intToHex], comes back in lowercase: the two cases of a letter have
    the same value. *)
Theorem X2_char_value_char (c : char) :
  is_hex c ->
  intToHex (hexDigitToInt c) = tolower c /\
  hexDigitToInt (tolower c) = hexDigitToInt c.
Proof.
  intros Hc. split; [| by apply hexDigitToInt_tolower].
  apply is_hex_ranges in Hc.
  assert (H : c = 48 \/ c = 49 \/ c = 50 \/ c = 51 \/ c = 52 \/ c = 53 \/
              c = 54 \/ c = 55 \/ c = 56 \/ c = 57 \/
              c = 97 \/ c = 98 \/ c = 99 \/ c = 100 \/ c = 101 \/ c = 102 \/
              c = 65 \/ c = 66 \/ c = 67 \/ c = 68 \/ c = 69 \/ c = 70) by lia.
  repeat (destruct H as [H | H]); subst c; reflexivity.
Qed.

Lemma X2_char_value_char_witness :
  intToHex (hexDigitToInt 69) = tolower 69 /\
  hexDigitToInt (tolower 69) = hexDigitToInt 69.
Proof. apply (X2_char_value_char 69). reflexivity. Defined.

(** [X3] The error value -1: [hexDigitToInt] returns it exactly on the
    characters that are not hexadecimal digits, [intToHex] exactly on the
    numbers outside 0..15. *)
Theorem X3_conversion_errors (c : char) (n : Z) :
  (hexDigitToInt c = -1 <-> ~ is_hex c) /\
  (intToHex n = -1 <-> ~ (0 <= n <= 15)).
Proof.
  split; split.
  - intros H Hc. apply hexDigitToInt_range in Hc. lia.
  - intros Hc. unfold hexDigitToInt, is_hex in *. destruct (isxdigit c); done.
  - intros H Hn. digit_cases n; discriminate.
  - intros Hn. unfold intToHex.
    destruct (Z.leb_spec 0 n), (Z.leb_spec n 15); cbn [andb]; try reflexivity; lia.
Qed.

(** ** Digit arithmetic *)

(** [X4] [multiplyHexDigits] on two digit characters returns two digit
    characters, the low and the high digit of the product of their
    values. *)
Theorem X4_multiplyHexDigits_product (a b : char) :
  is_hex a -> is_hex b ->
  let '(product, carryOut) := multiplyHexDigits a b in
  is_hex product /\ is_hex carryOut /\
  16 * hexDigitToInt carryOut + hexDigitToInt product
  = hexDigitToInt a * hexDigitToInt b.
Proof.
  intros Ha Hb. unfold multiplyHexDigits.
  apply hexDigitToInt_range in Ha, Hb.
  set (r := hexDigitToInt a * hexDigitToInt b).
  assert (0 <= r <= 225) by (unfold r; nia).
  rewrite Z.rem_mod_nonneg, Z.quot_div_nonneg by lia.
  assert (0 <= r mod 16 <= 15) by (pose proof (Z.mod_pos_bound r 16); lia).
  assert (0 <= r / 16 <= 15) by (Z.div_mod_to_equations; lia).
  split; [by apply is_hex_intToHex |]. split; [by apply is_hex_intToHex |].
  rewrite !hexDigitToInt_intToHex by done. Z.div_mod_to_equations; lia.
Qed.

Lemma X4_multiplyHexDigits_product_witness :
  let '(product, carryOut) := multiplyHexDigits 102 70 in
  is_hex product /\ is_hex carryOut /\
  16 * hexDigitToInt carryOut + hexDigitToInt product
  = hexDigitToInt 102 * hexDigitToInt 70.
Proof. apply (X4_multiplyHexDigits_product 102 70); reflexivity. Defined.

(** [X5] One call of [addHexDigits] with a carry cell that holds a digit
    below 15: the returned digit and the new carry are digit characters
    and [digit + 16 * carry' = a + b + 16 * carry]; the carry cell only
    grows. *)
Theorem X5_addHexDigits_sum (a b carry : char) :
  is_hex a -> is_hex b -> is_hex carry -> hexDigitToInt carry <= 14 ->
  let '(digit, carryOut) := addHexDigits a b carry in
  is_hex digit /\ is_hex carryOut /\
  hexDigitToInt digit + 16 * hexDigitToInt carryOut
  = hexDigitToInt a + hexDigitToInt b + 16 * hexDigitToInt carry /\
  hexDigitToInt carry <= hexDigitToInt carryOut <= hexDigitToInt carry + 1.
Proof.
  intros Ha Hb Hc Hc'. rewrite addHexDigits_spec by done. cbv zeta.
  apply hexDigitToInt_range in Ha, Hb, Hc.
  set (s := hexDigitToInt a + hexDigitToInt b).
  assert (0 <= s <= 30) by (unfold s; lia).
  assert (0 <= s mod 16 <= 15) by (pose proof (Z.mod_pos_bound s 16); lia).
  assert (0 <= s / 16 <= 1) by (Z.div_mod_to_equations; lia).
  split; [apply is_hex_intToHex; lia |]. split; [apply is_hex_intToHex; lia |].
  rewrite !hexDigitToInt_intToHex by lia.
  split; [Z.div_mod_to_equations; lia | lia].
Qed.

Lemma X5_addHexDigits_sum_witness :
  let '(digit, carryOut) := addHexDigits 102 57 50 in
  is_hex digit /\ is_hex carryOut /\
  hexDigitToInt digit + 16 * hexDigitToInt carryOut
  = hexDigitToInt 102 + hexDigitToInt 57 + 16 * hexDigitToInt 50 /\
  hexDigitToInt 50 <= hexDigitToInt carryOut <= hexDigitToInt 50 + 1.
Proof.
  apply (X5_addHexDigits_sum 102 57 50); first [reflexivity | (cbn; lia)].
Defined.

(** [X6] The carry cell cannot count past 15: when it holds ['f'] and the
    two digits add up to 16 or more, [addHexDigits] stores the error
    value -1 in it, which is no digit. *)
Theorem X6_addHexDigits_carry_overflow (a b carry : char) :
  is_hex a -> is_hex b -> hexDigitToInt carry = 15 ->
  16 <= hexDigitToInt a + hexDigitToInt b ->
  snd (addHexDigits a b carry) = -1 /\ ~ is_hex (snd (addHexDigits a b carry)).
Proof.
  intros Ha Hb Hc Hs. unfold addHexDigits. cbn [snd]. rewrite Hc.
  apply hexDigitToInt_range in Ha, Hb.
  set (s := hexDigitToInt a + hexDigitToInt b) in *.
  rewrite Z.quot_div_nonneg by lia.
  assert (Hq : (s + 16 * 15) / 16 = 16) by (Z.div_mod_to_equations; lia).
  rewrite Hq. split; [reflexivity | discriminate].
Qed.

Lemma X6_addHexDigits_carry_overflow_witness :
  snd (addHexDigits 102 102 102) = -1 /\ ~ is_hex (snd (addHexDigits 102 102 102)).
Proof.
  apply (X6_addHexDigits_carry_overflow 102 102 102); first [reflexivity | (cbn; lia)].
Defined.

(** ** Validation and reading *)

Lemma valid_char_test (c : char) :
  ((48 <=? c) && (c <=? 57) || (97 <=? c) && (c <=? 102) ||
   (65 <=? c) && (c <=? 70) || (c =? NL)) = true <-> valid_char c.
Proof.
  unfold valid_char, is_hex, isxdigit, isdigit, NL. split.
  - char_cases; intros; try discriminate; auto.
  - intros [H | ->]; [| reflexivity]. revert H. char_cases.
Qed.

Lemma isValidHexadecimal_exact (s : list char) :
  (isValidHexadecimal s = 1 /\ Forall valid_char (c_str s)) \/
  (isValidHexadecimal s = 0 /\ ~ Forall valid_char (c_str s)).
Proof.
  induction s as [| c s IH]; [left; split; [reflexivity | constructor] |].
  cbn [isValidHexadecimal c_str].
  destruct (Z.eqb_spec c 0); [left; split; [reflexivity | constructor] |].
  pose proof (valid_char_test c) as Htest.
  destruct (_ || _).
  - destruct IH as [[-> Hs] | [-> Hs]]; [left | right]; split; try reflexivity.
    + constructor; [by apply Htest | done].
    + intros H. apply Forall_cons in H as [_ H]. done.
  - right. split; [reflexivity |].
    intros H. apply Forall_cons in H as [H _]. apply Htest in H. discriminate.
Qed.

(** [X7] [isValidHexadecimal] returns 1 or 0, and 1 exactly when every
    character before the first NUL of the buffer is a hexadecimal digit
    or a newline; what follows the NUL is never looked at. *)
Theorem X7_validator_exact (s : list char) :
  (isValidHexadecimal s = 1 /\ Forall valid_char (c_str s)) \/
  (isValidHexadecimal s = 0 /\ ~ Forall valid_char (c_str s)).
Proof. apply isValidHexadecimal_exact. Qed.

Lemma read_line_shape (s : list char) :
  exists body, Forall (fun c => c <> NL) body /\
               (fst (read_line s) = body \/ fst (read_line s) = body ++ [NL]).
Proof.
  induction s as [| c s (body & Hbody & IH)]; [exists []; split; [constructor | by left] |].
  cbn [read_line]. destruct (Z.eqb_spec c NL) as [-> | Hc].
  - exists []. split; [constructor | by right].
  - destruct (read_line s) as [l r]. cbn [fst] in *.
    exists (c :: body). split; [by constructor |].
    destruct IH as [-> | ->]; auto.
Qed.

Lemma c_str_shape (body t : list char) :
  Forall (fun c => c <> NL) body -> t = [] \/ t = [NL] ->
  exists body', Forall (fun c => c <> NL) body' /\
                (c_str (body ++ t) = body' \/ c_str (body ++ t) = body' ++ [NL]).
Proof.
  intros Hbody Ht. induction Hbody as [| c body Hc _ (body' & Hb' & IH)].
  - exists []. split; [constructor |]. destruct Ht as [-> | ->]; [by left | by right].
  - cbn [app c_str]. destruct (Z.eqb_spec c 0).
    + exists []. split; [constructor | by left].
    + exists (c :: body'). split; [by constructor |].
      destruct IH as [-> | ->]; auto.
Qed.

Lemma trim_newline_noNL (s : list char) :
  Forall (fun c => c <> NL) s -> trim_newline s = s.
Proof.
  intros Hs. unfold trim_newline.
  destruct (Nat.ltb_spec 0 (length s)) as [Hlen |]; [| reflexivity].
  assert (Hlast : s !!! (length s - 1)%nat <> NL)
    by (apply (Forall_lookup_total_1 (fun c => c <> NL)); [done | lia]).
  destruct (Z.eqb_spec (s !!! (length s - 1)%nat) NL); done.
Qed.

Lemma valid_noNL_hex (s : list char) :
  Forall valid_char s -> Forall (fun c => c <> NL) s -> Forall is_hex s.
Proof.
  induction 1 as [| c s Hc _ IH]; intros Hn; [constructor |].
  apply Forall_cons in Hn as [Hc' Hn]. constructor; [| by apply IH].
  destruct Hc; done.
Qed.

(** What [readInput] keeps of a line that passed the validator. *)
Lemma accepted_line_hex (s : list char) :
  isValidHexadecimal (fst (read_line s)) <> 0 ->
  Forall is_hex (trim_newline (c_str (fst (read_line s)))).
Proof.
  intros Hvalid.
  destruct (isValidHexadecimal_exact (fst (read_line s))) as [[_ Hok] | [H0 _]]; [| done].
  destruct (read_line_shape s) as (body & Hbody & Hline).
  assert (Hshape : exists body', Forall (fun c => c <> NL) body' /\
            (c_str (fst (read_line s)) = body' \/
             c_str (fst (read_line s)) = body' ++ [NL])).
  { destruct Hline as [-> | ->].
    - rewrite <- (app_nil_r body). apply c_str_shape; auto.
    - apply c_str_shape; auto. }
  destruct Hshape as (body' & Hb' & [Heq | Heq]); rewrite Heq in *.
  - rewrite trim_newline_noNL by done. by apply valid_noNL_hex.
  - rewrite trim_newline_snoc. apply Forall_app in Hok as [Hok _].
    by apply valid_noNL_hex.
Qed.

Lemma length_c_str (b : list char) : (length (c_str b) <= length b)%nat.
Proof.
  induction b as [| c b IH]; [done |]. cbn [c_str].
  destruct (c =? 0); cbn [length]; lia.
Qed.

Lemma length_trim_newline (s : list char) : (length (trim_newline s) <= length s)%nat.
Proof. unfold trim_newline. destruct (_ && _); [rewrite length_take |]; lia. Qed.

Lemma length_read_line (s : list char) :
  (length (fst (read_line s)) + length (snd (read_line s)) = length s)%nat.
Proof. rewrite (read_line_split s) at 3. by rewrite length_app. Qed.

Lemma readInput_inr (stdin A B : list char) :
  readInput stdin = inr (A, B) ->
  Forall is_hex A /\ Forall is_hex B /\
  (length A <= length stdin)%nat /\ (length B <= length stdin)%nat.
Proof.
  unfold readInput.
  destruct (getline stdin) as [[bufA rest] |] eqn:HgA; [| discriminate].
  destruct (_ && _); [discriminate |].
  destruct (getline rest) as [[bufB rest'] |] eqn:HgB; [| discriminate].
  destruct (_ && _); [discriminate |].
  apply getline_Some in HgA as [HbufA Hrest].
  apply getline_Some in HgB as [HbufB _].
  destruct (Z.eqb_spec (isValidHexadecimal bufA) 0) as [| HokA]; [discriminate |].
  destruct (Z.eqb_spec (isValidHexadecimal bufB) 0) as [| HokB]; [discriminate |].
  intros [= <- <-]. subst bufA bufB.
  pose proof (length_read_line stdin). pose proof (length_read_line rest).
  pose proof (length_c_str (fst (read_line stdin))).
  pose proof (length_c_str (fst (read_line rest))).
  pose proof (length_trim_newline (c_str (fst (read_line stdin)))).
  pose proof (length_trim_newline (c_str (fst (read_line rest)))).
  rewrite <- Hrest in *.
  split; [by apply accepted_line_hex |]. split; [by apply accepted_line_hex |]. lia.
Qed.

(** [X8] Whatever bytes stdin holds, if [readInput] hands back two
    operands then both consist of hexadecimal digits only (no newline
    and no NUL is left in them) and neither is longer than the input. *)
Theorem X8_readInput_operands_are_digits (stdin A B : list char) :
  readInput stdin = inr (A, B) ->
  Forall is_hex A /\ Forall is_hex B /\
  (length A <= length stdin)%nat /\ (length B <= length stdin)%nat.
Proof. apply readInput_inr. Qed.

Lemma X8_readInput_operands_are_digits_witness :
  Forall is_hex (bytes "1") /\ Forall is_hex (bytes "Ab") /\
  (length (bytes "1") <= 8)%nat /\ (length (bytes "Ab") <= 8)%nat.
Proof.
  apply (X8_readInput_operands_are_digits
           [49; 0; 103; NL; 65; 98; NL; 122] (bytes "1") (bytes "Ab")).
  reflexivity.
Defined.

Lemma line_not_empty (A t : list char) :
  A <> [] -> Forall (fun c => c <> NL) A ->
  (length (A ++ t) =? 1)%nat && ((A ++ t) !!! 0%nat =? NL) = false.
Proof.
  intros Hne HA. destruct HA as [| c A Hc _]; [done |]. cbn.
  destruct (Z.eqb_spec c NL); [done |]. apply andb_false_r.
Qed.

(** [X9] The read errors of [readInput] come before validation.  With
    [A] any non-empty line (its characters need not be digits): an empty
    stream and a stream that starts with an empty line are refused for the
    first operand; a stream that ends after [A], with or without its
    newline, is refused for want of a second operand; an empty second
    line is refused as such. *)
Theorem X9_readInput_missing_operand (A rest : list char) :
  A <> [] -> Forall (fun c => c <> NL) A ->
  readInput [] = inl "Error reading the first input!"%string /\
  readInput (NL :: rest) = inl "Error: Empty first input!"%string /\
  readInput A = inl "Error reading the second input!"%string /\
  readInput (A ++ [NL]) = inl "Error reading the second input!"%string /\
  readInput (A ++ NL :: NL :: rest) = inl "Error: Empty second input!"%string.
Proof.
  intros Hne HA. split; [reflexivity |]. split; [reflexivity |].
  assert (Hget : forall t, getline (A ++ t) = Some (read_line (A ++ t)))
    by (intros t; destruct A; done).
  split; [| split].
  - unfold readInput. rewrite <- (app_nil_r A) at 1.
    rewrite Hget, app_nil_r, read_line_eof by done.
    rewrite <- (app_nil_r A) at 1 2. by rewrite line_not_empty.
  - unfold readInput. rewrite Hget, read_line_app by done.
    by rewrite line_not_empty.
  - unfold readInput. rewrite Hget, read_line_app by done.
    by rewrite line_not_empty.
Qed.

Lemma X9_readInput_missing_operand_witness :
  readInput (bytes "xyz") = inl "Error reading the second input!"%string /\
  readInput (bytes "xyz" ++ NL :: NL :: bytes "12")
  = inl "Error: Empty second input!"%string.
Proof.
  destruct (X9_readInput_missing_operand (bytes "xyz") (bytes "12"))
    as (_ & _ & H1 & _ & H2); [done | by repeat constructor |].
  split; [exact H1 | exact H2].
Defined.

(** [X10] What [sendInputToChild] writes for two non-empty digit strings
    is read back by the child's [readInput] as the same two strings. *)
Theorem X10_send_then_read (A B : list char) :
  A <> [] -> B <> [] -> Forall is_hex A -> Forall is_hex B ->
  readInput (sendInputToChild A B) = inr (A, B).
Proof.
  intros. unfold sendInputToChild. apply readInput_valid; try done. by right.
Qed.

Lemma X10_send_then_read_witness :
  readInput (sendInputToChild (bytes "1A") (bytes "ab"))
  = inr (bytes "1A", bytes "ab").
Proof.
  apply (X10_send_then_read (bytes "1A") (bytes "ab"));
    first [done | by repeat constructor].
Defined.

(** ** Padding and splitting *)

Lemma maxLength_loop_Some la lb fuel : forall m r,
  maxLength_loop fuel m la lb = Some r -> (m <= r /\ la <= r /\ lb <= r)%nat.
Proof.
  induction fuel as [| fuel IH]; intros m r; rewrite maxLength_loop_unfold;
    destruct (Nat.ltb_spec m la), (Nat.ltb_spec m lb); cbn [orb];
    try discriminate; try (intros [= <-]; lia).
  all: intros Hr; apply IH in Hr; lia.
Qed.

(** [X11] Whenever [padAndAlignNumbers] returns, the two strings it
    returns have one common length, which is at least 1; each is the
    operand it was given behind a run of ['0'] characters, denotes the
    same number, and is made of digits if the operand was. *)
Theorem X11_padding_keeps_value (fuel : nat) (numA numB paddedA paddedB : list char) :
  padAndAlignNumbers fuel numA numB = Some (paddedA, paddedB) ->
  length paddedA = length paddedB /\ (1 <= length paddedA)%nat /\
  paddedA = replicate (length paddedA - length numA) ZERO ++ numA /\
  paddedB = replicate (length paddedB - length numB) ZERO ++ numB /\
  hex_value paddedA = hex_value numA /\ hex_value paddedB = hex_value numB /\
  (Forall is_hex numA -> Forall is_hex paddedA) /\
  (Forall is_hex numB -> Forall is_hex paddedB).
Proof.
  unfold padAndAlignNumbers.
  destruct (maxLength_loop fuel 1 (length numA) (length numB)) as [m |] eqn:Hloop;
    [| discriminate].
  apply maxLength_loop_Some in Hloop as (H1 & HA & HB).
  intros [= <- <-]. rewrite !length_app, !length_replicate.
  replace (m - length numA + length numA - length numA)%nat
    with (m - length numA)%nat by lia.
  replace (m - length numB + length numB - length numB)%nat
    with (m - length numB)%nat by lia.
  rewrite !hex_value_padded.
  repeat split; try lia;
    intros H; (apply Forall_app; split; [by apply Forall_replicate | done]).
Qed.

Lemma X11_padding_keeps_value_witness :
  length (bytes "000a") = length (bytes "1234") /\
  hex_value (bytes "000a") = hex_value (bytes "a").
Proof.
  destruct (X11_padding_keeps_value 2 (bytes "a") (bytes "1234")
              (bytes "000a") (bytes "1234") eq_refl)
    as (Hlen & _ & _ & _ & Hval & _).
  split; [exact Hlen | exact Hval].
Defined.

(** [X12] [splitNumbers] on two operands of one even length [2 * h]
    cuts each into two halves of [h] characters that put together give
    the operand back; as numbers, operand = high * 16^h + low. *)
Theorem X12_split_halves (h : nat) (numA numB : list char) :
  length numA = (2 * h)%nat -> length numB = (2 * h)%nat ->
  let '(Ah, Al, Bh, Bl) := splitNumbers numA numB in
  numA = Ah ++ Al /\ numB = Bh ++ Bl /\
  length Ah = h /\ length Al = h /\ length Bh = h /\ length Bl = h /\
  hex_value numA = hex_value Ah * 16 ^ Z.of_nat h + hex_value Al /\
  hex_value numB = hex_value Bh * 16 ^ Z.of_nat h + hex_value Bl.
Proof.
  intros HA HB. unfold splitNumbers. rewrite HA.
  replace (2 * h / 2)%nat with h by (rewrite Nat.mul_comm, Nat.div_mul; lia).
  rewrite (take_ge (drop h numA)), (take_ge (drop h numB))
    by (rewrite length_drop; lia).
  assert (VA : hex_value numA = hex_value (take h numA ++ drop h numA))
    by (by rewrite take_drop).
  assert (VB : hex_value numB = hex_value (take h numB ++ drop h numB))
    by (by rewrite take_drop).
  rewrite hex_value_app, length_drop in VA, VB.
  rewrite !take_drop, !length_take, !length_drop.
  repeat split; try lia; [rewrite VA | rewrite VB]; repeat f_equal; lia.
Qed.

Lemma X12_split_halves_witness :
  let '(Ah, Al, Bh, Bl) := splitNumbers (bytes "12ab") (bytes "00ff") in
  bytes "12ab" = Ah ++ Al /\ bytes "00ff" = Bh ++ Bl /\
  length Ah = 2%nat /\ length Al = 2%nat /\ length Bh = 2%nat /\ length Bl = 2%nat /\
  hex_value (bytes "12ab") = hex_value Ah * 16 ^ Z.of_nat 2 + hex_value Al /\
  hex_value (bytes "00ff") = hex_value Bh * 16 ^ Z.of_nat 2 + hex_value Bl.
Proof.
  apply (X12_split_halves 2 (bytes "12ab") (bytes "00ff")); reflexivity.
Defined.

(** ** Waiting *)

Lemma WEXITSTATUS_low_byte (status : Z) : 0 <= status < 256 -> child_ok status.
Proof.
  intros H. unfold child_ok, WEXITSTATUS.
  rewrite Z.shiftr_div_pow2 by lia. change (2 ^ 8) with 256.
  by rewrite Z.div_small.
Qed.

Lemma waitForChildren_from_all_ok statuses : forall i,
  Forall child_ok statuses ->
  waitForChildren_from i statuses = (seq i (length statuses), None).
Proof.
  induction statuses as [| st rest IH]; intros i Hall; [reflexivity |].
  apply Forall_cons in Hall as [Hst Hall]. cbn [waitForChildren_from].
  rewrite Hst, (IH (S i) Hall). reflexivity.
Qed.

(** [X13] [waitForChildren] looks only at the exit-status byte (bits
    8..15) of each wait status and never at how the child ended: wait
    statuses that lie wholly in the low byte, as those of children ended
    by a signal do, all pass for success, and every child is collected. *)
Theorem X13_wait_ignores_low_byte (statuses : list Z) :
  Forall (fun status => 0 <= status < 256) statuses ->
  waitForChildren statuses = (seq 0 (length statuses), None).
Proof.
  intros H. apply waitForChildren_from_all_ok.
  eapply Forall_impl; [exact H |]. apply WEXITSTATUS_low_byte.
Qed.

Lemma X13_wait_ignores_low_byte_witness :
  waitForChildren [11; 0; 139; 9] = ([0; 1; 2; 3]%nat, None).
Proof.
  apply (X13_wait_ignores_low_byte [11; 0; 139; 9]).
  repeat constructor; lia.
Defined.

(** ** Summing *)

(** [X14] For any four rows of [2 * n] digit characters, true partial
    products or not, the summation loop is an exact addition: the digits
    left in [final_result] and the last carry together denote the sum of
    the four numbers, and that carry is at most 3. *)
Theorem X14_rows_sum (n : nat) (r0 r1 r2 r3 : list char) :
  length r0 = (2 * n)%nat -> length r1 = (2 * n)%nat ->
  length r2 = (2 * n)%nat -> length r3 = (2 * n)%nat ->
  Forall is_hex r0 -> Forall is_hex r1 -> Forall is_hex r2 -> Forall is_hex r3 ->
  let '(final_result, carry_digit) := sumResults n [r0; r1; r2; r3] in
  length final_result = (2 * n)%nat /\ Forall is_hex final_result /\
  is_hex carry_digit /\ hexDigitToInt carry_digit <= 3 /\
  hex_value final_result + hexDigitToInt carry_digit * 16 ^ Z.of_nat (2 * n)
  = hex_value r0 + hex_value r1 + hex_value r2 + hex_value r3.
Proof.
  intros L0 L1 L2 L3 H0 H1 H2 H3. unfold sumResults.
  rewrite (sum_loop_total (2 * n)) by done. cbv zeta.
  pose proof (hex_value_bound _ H0) as B0. pose proof (hex_value_bound _ H1) as B1.
  pose proof (hex_value_bound _ H2) as B2. pose proof (hex_value_bound _ H3) as B3.
  rewrite L0 in B0. rewrite L1 in B1. rewrite L2 in B2. rewrite L3 in B3.
  set (total := hex_value r0 + hex_value r1 + hex_value r2 + hex_value r3) in *.
  pose proof (pow16_pos (2 * n)) as Hpos.
  set (w := 16 ^ Z.of_nat (2 * n)) in *.
  assert (Hq : 0 <= total / w <= 3).
  { split; [apply Z.div_pos; lia |].
    apply Z.lt_succ_r, Z.div_lt_upper_bound; lia. }
  split; [apply to_hex_length |]. split; [apply to_hex_is_hex |].
  split; [apply is_hex_intToHex; lia |].
  rewrite hexDigitToInt_intToHex, hex_value_to_hex by lia. fold w.
  split; [lia |]. pose proof (Z.div_mod total w). lia.
Qed.

Lemma X14_rows_sum_witness :
  let '(final_result, carry_digit) :=
    sumResults 1 [bytes "ff"; bytes "FF"; bytes "0a"; bytes "90"] in
  length final_result = (2 * 1)%nat /\ Forall is_hex final_result /\
  is_hex carry_digit /\ hexDigitToInt carry_digit <= 3 /\
  hex_value final_result + hexDigitToInt carry_digit * 16 ^ Z.of_nat (2 * 1)
  = hex_value (bytes "ff") + hex_value (bytes "FF") +
    hex_value (bytes "0a") + hex_value (bytes "90").
Proof.
  apply (X14_rows_sum 1 (bytes "ff") (bytes "FF") (bytes "0a") (bytes "90"));
    first [reflexivity | by repeat constructor].
Defined.

(** ** The program on every input *)

Lemma main_of_readInput f (stdin A B : list char) :
  readInput stdin = inr (A, B) ->
  (Nat.log2_up (length A `max` length B) <= f)%nat ->
  main (S f) 1 stdin
  = Some (ok_result (to_hex (2 * nextPow2 (length A `max` length B))
                            (hex_value A * hex_value B))).
Proof.
  intros Hread Hf.
  destruct (readInput_inr _ _ _ Hread) as (HA & HB & _).
  set (k := Nat.log2_up (length A `max` length B)) in *.
  set (N := nextPow2 (length A `max` length B)).
  assert (HN : N = (2 ^ k)%nat) by reflexivity.
  pose proof (nextPow2_ge (length A `max` length B)) as Hge. fold N in Hge.
  pose proof (pow2_pos k) as Hpos.
  set (A' := replicate (N - length A) ZERO ++ A).
  set (B' := replicate (N - length B) ZERO ++ B).
  assert (HlA : length A' = (2 ^ k)%nat)
    by (unfold A'; rewrite length_app, length_replicate; lia).
  assert (HlB : length B' = (2 ^ k)%nat)
    by (unfold B'; rewrite length_app, length_replicate; lia).
  assert (HA' : Forall is_hex A')
    by (apply Forall_app; split; [by apply Forall_replicate | done]).
  assert (HB' : Forall is_hex B')
    by (apply Forall_app; split; [by apply Forall_replicate | done]).
  pose proof (main_pow2 k (S f) A' B' [NL] ltac:(lia) HlA HlB HA' HB'
                ltac:(by right)) as Hpad.
  assert (VA : hex_value A' = hex_value A) by apply hex_value_padded.
  assert (VB : hex_value B' = hex_value B) by apply hex_value_padded.
  rewrite VA, VB in Hpad.
  fold N. rewrite <- HN in Hpad. rewrite <- Hpad.
  cbn [main]. change (negb (1 =? 1)) with false. cbn iota.
  rewrite Hread.
  rewrite readInput_valid
    by (done || (by right) || by apply (pow2_length_nonempty k)).
  rewrite padAndAlignNumbers_spec
    by (transitivity N; [lia | rewrite HN; apply Nat.pow_le_mono_r; lia]).
  fold N A' B'.
  rewrite (padAndAlignNumbers_same f k A' B') by done.
  reflexivity.
Qed.

(** [X16] The whole program, on any byte stream at all (argc = 1): it
    ends, and its result is fixed by [readInput] alone.  If [readInput]
    refuses the input, the run exits with [EXIT_FAILURE], that one
    diagnostic and an empty stdout; if it hands back [A] and [B], the run
    exits with 0 and prints the product of the two numbers in
    [2 * nextPow2 (max (length A) (length B))] lowercase digits.  The
    child-failure and pipe-read error exits are never taken. *)
Theorem X16_main_by_readInput (fuel : nat) (stdin : list char) :
  (Nat.log2_up (length stdin) < fuel)%nat ->
  main fuel 1 stdin
  = Some match readInput stdin with
         | inl msg => ProcessResult EXIT_FAILURE [] [msg]
         | inr (A, B) =>
             ProcessResult EXIT_SUCCESS
               (to_hex (2 * nextPow2 (length A `max` length B))
                       (hex_value A * hex_value B) ++ [NL]) []
         end.
Proof.
  intros Hfuel. destruct fuel as [| f]; [lia |].
  destruct (readInput stdin) as [msg | [A B]] eqn:Hread.
  - cbn [main]. change (negb (1 =? 1)) with false. cbn iota.
    by rewrite Hread.
  - apply main_of_readInput; [done |].
    destruct (readInput_inr _ _ _ Hread) as (_ & _ & HlA & HlB).
    assert (Nat.log2_up (length A `max` length B) <= Nat.log2_up (length stdin))%nat
      by (apply Nat.log2_up_le_mono; lia).
    lia.
Qed.

Lemma X16_main_by_readInput_witness :
  main 4 1 (bytes "zz" ++ [NL] ++ bytes "12" ++ [NL])
  = Some (ProcessResult EXIT_FAILURE [] ["Invalid Input for the first number!"%string]).
Proof.
  apply (X16_main_by_readInput 4 (bytes "zz" ++ [NL] ++ bytes "12" ++ [NL])).
  vm_compute. lia.
Defined.

(** [X17] All or nothing, for every argc, input and fuel: a run that
    ends either exits with 0 and an empty stderr, or exits with
    [EXIT_FAILURE], at least one diagnostic and nothing on stdout. *)
Theorem X17_all_or_nothing (fuel : nat) (argc : Z) (stdin : list char)
    (r : process_result) :
  main fuel argc stdin = Some r ->
  (exit_status r = EXIT_SUCCESS /\ stderr r = []) \/
  (exit_status r = EXIT_FAILURE /\ stdout r = [] /\ stderr r <> []).
Proof.
  destruct fuel as [| f]; [discriminate |]. cbn [main].
  repeat case_match; intros [= <-]; cbn; auto.
Qed.

Lemma X17_all_or_nothing_witness :
  (exit_status (ProcessResult 1 [] ["Error: Empty first input!"%string]) = EXIT_SUCCESS /\
   stderr (ProcessResult 1 [] ["Error: Empty first input!"%string]) = []) \/
  (exit_status (ProcessResult 1 [] ["Error: Empty first input!"%string]) = EXIT_FAILURE /\
   stdout (ProcessResult 1 [] ["Error: Empty first input!"%string]) = [] /\
   stderr (ProcessResult 1 [] ["Error: Empty first input!"%string]) <> []).
Proof.
  apply (X17_all_or_nothing 1 1 [NL; 49; NL]
           (ProcessResult 1 [] ["Error: Empty first input!"%string])).
  reflexivity.
Defined.








Lemma readInput_two_lines (A B rest : list char) :
  Forall (fun c => c <> NL) A -> Forall (fun c => c <> NL) B ->
  readInput (A ++ NL :: B ++ NL :: rest) = readInput (A ++ NL :: B ++ [NL]).
Proof.
  intros HA HB. unfold readInput.
  assert (Hget : forall X t, getline (X ++ NL :: t) = Some (read_line (X ++ NL :: t)))
    by (intros X t; destruct X; done).
  rewrite !Hget, !read_line_app by done.
  rewrite !Hget, !read_line_app by done. reflexivity.
Qed.

(** [X20] Only the first two lines are read: whatever follows the second
    newline, for any fuel, argc and line contents, the run is the same
    as on the two lines alone. *)
Theorem X20_rest_of_input_ignored (fuel : nat) (argc : Z) (A B rest : list char) :
  Forall (fun c => c <> NL) A -> Forall (fun c => c <> NL) B ->
  main fuel argc (A ++ NL :: B ++ NL :: rest)
  = main fuel argc (A ++ NL :: B ++ [NL]).
Proof.
  intros HA HB. destruct fuel as [| f]; [reflexivity |]. cbn [main].
  by rewrite readInput_two_lines.
Qed.

Lemma X20_rest_of_input_ignored_witness :
  main 2 1 (bytes "1a" ++ NL :: bytes "ab" ++ NL :: bytes "zz")
  = main 2 1 (bytes "1a" ++ NL :: bytes "ab" ++ [NL]).
Proof.
  apply (X20_rest_of_input_ignored 2 1 (bytes "1a") (bytes "ab") (bytes "zz"));
    repeat constructor; done.
Defined.

Lemma isValidHexadecimal_cut (A x : list char) :
  Forall (fun c => c <> 0) A ->
  isValidHexadecimal (A ++ 0 :: x) = isValidHexadecimal A /\
  isValidHexadecimal (A ++ [NL]) = isValidHexadecimal A /\
  c_str (A ++ 0 :: x) = A.
Proof.
  induction 1 as [| c A Hc _ (IH1 & IH2 & IH3)]; [done |].
  cbn [app isValidHexadecimal c_str]. rewrite IH1, IH2, IH3.
  destruct (Z.eqb_spec c 0); done.
Qed.

Lemma readInput_nul_cut (A junk rest : list char) :
  A <> [] -> Forall (fun c => c <> NL /\ c <> 0) A ->
  Forall (fun c => c <> NL) junk ->
  readInput (A ++ 0 :: junk ++ NL :: rest) = readInput (A ++ NL :: rest).
Proof.
  intros Hne HA Hjunk.
  assert (HA_nl : Forall (fun c => c <> NL) A)
    by (eapply Forall_impl; [exact HA |]; by intros c [? ?]).
  assert (HA_nul : Forall (fun c => c <> 0) A)
    by (eapply Forall_impl; [exact HA |]; by intros c [? ?]).
  assert (Hline : Forall (fun c => c <> NL) (A ++ 0 :: junk))
    by (apply Forall_app; split; [done | by constructor]).
  replace (A ++ 0 :: junk ++ NL :: rest) with ((A ++ 0 :: junk) ++ NL :: rest)
    by (by rewrite <- app_assoc).
  unfold readInput.
  assert (Hget : forall X t, getline (X ++ NL :: t) = Some (read_line (X ++ NL :: t)))
    by (intros X t; destruct X; done).
  rewrite !Hget, !read_line_app by done.
  rewrite !line_not_empty by (done || by destruct A).
  destruct (isValidHexadecimal_cut A junk HA_nul) as (_ & Hv2 & _).
  destruct (isValidHexadecimal_cut A (junk ++ [NL]) HA_nul) as (Hv1 & _ & Hc).
  replace ((A ++ 0 :: junk) ++ [NL]) with (A ++ 0 :: junk ++ [NL])
    by (by rewrite <- app_assoc).
  rewrite Hv1, Hv2, Hc.
  rewrite (c_str_id (A ++ [NL]))
    by (apply Forall_app; split; [done | by repeat constructor]).
  by rewrite trim_newline_snoc, trim_newline_noNL.
Qed.

(** [X21] A NUL byte cuts the first line short: for a non-empty line
    start [A] without NUL or newline, whatever stands between a NUL and
    the end of the line is neither validated nor used, and the run is
    the same as on the line [A] alone. *)
Theorem X21_nul_cuts_first_line (fuel : nat) (argc : Z) (A junk rest : list char) :
  A <> [] -> Forall (fun c => c <> NL /\ c <> 0) A ->
  Forall (fun c => c <> NL) junk ->
  main fuel argc (A ++ 0 :: junk ++ NL :: rest) = main fuel argc (A ++ NL :: rest).
Proof.
  intros Hne HA Hjunk. destruct fuel as [| f]; [reflexivity |]. cbn [main].
  by rewrite readInput_nul_cut.
Qed.

Lemma X21_nul_cuts_first_line_witness :
  main 2 1 (bytes "1f" ++ 0 :: bytes "xyz" ++ NL :: bytes "02" ++ [NL])
  = main 2 1 (bytes "1f" ++ NL :: bytes "02" ++ [NL]).
Proof.
  apply (X21_nul_cuts_first_line 2 1 (bytes "1f") (bytes "xyz") (bytes "02" ++ [NL]));
    repeat constructor; done.
Defined.

(** [X22] The single-digit branch of [main] and [multiplyHexDigits]
    agree: for two digit characters the branch prints the carry digit and
    then the product digit that [multiplyHexDigits] computes. *)
Theorem X22_single_digit_agrees_with_multiplyHexDigits (a b : char) :
  is_hex a -> is_hex b ->
  single_digit_case [a] [b]
  = [snd (multiplyHexDigits a b); fst (multiplyHexDigits a b); NL].
Proof.
  intros Ha Hb. rewrite single_digit_case_spec by done.
  unfold multiplyHexDigits. cbn [fst snd to_hex app].
  apply hexDigitToInt_range in Ha, Hb.
  set (r := hexDigitToInt a * hexDigitToInt b).
  assert (0 <= r <= 225) by (unfold r; nia).
  rewrite Z.rem_mod_nonneg, Z.quot_div_nonneg by lia.
  change (16 ^ Z.of_nat 1) with 16. change (16 ^ Z.of_nat 0) with 1.
  rewrite Z.div_1_r.
  assert (0 <= r / 16 <= 15) by (Z.div_mod_to_equations; lia).
  assert (0 <= r mod 16 <= 15) by (pose proof (Z.mod_pos_bound r 16); lia).
  rewrite (Z.mod_small (r / 16)) by lia.
  by rewrite !lower_hex_digit_intToHex.
Qed.

Lemma X22_single_digit_agrees_with_multiplyHexDigits_witness :
  single_digit_case [97] [66]
  = [snd (multiplyHexDigits 97 66); fst (multiplyHexDigits 97 66); NL].
Proof.
  apply (X22_single_digit_agrees_with_multiplyHexDigits 97 66); reflexivity.
Defined.
